(** * The hospital graph loader: [hospital_bulk_csv_write.py]

    A shallow embedding of [load_hospital_graph_from_csv] together with the
    Cypher statements it sends to the graph store, followed by the
    properties of the loader.

    The loader talks to the store only through parametrised statements
    ([session.run] / [tx.run]).  The store is modelled as a property graph
    (nodes, relationships, uniqueness constraints) and each of the three
    statement shapes the loader uses is given its Cypher meaning:

      - [CREATE CONSTRAINT IF NOT EXISTS FOR (n:L) REQUIRE n.id IS UNIQUE]
      - [MERGE (n:L {k1: e1, ...})]
      - [MATCH (a:LA {..}) MATCH (b:LB {..}) MERGE (a)-[r:T]->(b)
         ON CREATE SET r.k = e, ...]

    The loader never looks at the result [session.run] returns.  With the
    driver this matters: when the store reports the failure of a statement
    only with the result, the error surfaces at the next [session.run] of
    the same session, or is discarded when the session is closed.  The
    model keeps track of such a pending failure.

    Logging and the credentials are left out: they do not influence which
    statements are issued nor what they do. *)

From Stdlib Require Import ZArith Ascii String.
From stdpp Require Import base option list strings gmap.

Local Open Scope Z_scope.
Local Open Scope nat_scope.

(** ** Scalars of the store

    The loader hands every CSV field to the store as a string and lets the
    store coerce it with [toInteger] / [toFloat]; both return [null]
    ([None]) on a string they cannot read.  The float carrier, the two
    coercions and the store's equality on floats belong to the store, not
    to the loader, so the development is parametric in them.  Nothing is
    assumed about them: in particular float equality need not be
    reflexive (a NaN is not equal to itself). *)

Class Scalars := {
  float : Type;
  toInteger : string → option Z;
  toFloat : string → option float;
  float_eqb : float → float → bool;
  int_float_eqb : Z → float → bool
}.

(** Errors a run can raise: Python's own ([KeyError] from [row[k]],
    a failing [open]), the driver's ([ConfigurationError] for a URI it
    cannot use) and those reported by the store. *)
Inductive exn :=
  | KeyError (k : string)
  | OpenFailed
  | ConfigurationError
  | ParameterMissing (p : string)
  | MergeNullProperty (k : string)
  | ConstraintValidationFailed (label : string)
  | ConstraintCreationFailed (label : string)
  | ServiceUnavailable.

Inductive outcome (A : Type) :=
  | Ok (a : A)
  | Raise (e : exn).
Arguments Ok {A} a.
Arguments Raise {A} e.

#[export] Instance outcome_ret : MRet outcome := λ A a, Ok a.
#[export] Instance outcome_bind : MBind outcome := λ A B f m,
  match m with
  | Ok a => f a
  | Raise e => Raise e
  end.

(** A row as [csv.DictReader] yields it: a dict from column names to
    either a string or [None] (the fill-in for a short line). *)
Abbreviation row := (gmap string (option string)).

(** The keyword arguments of [session.run]: statement parameters. *)
Abbreviation params := (gmap string (option string)).

(** [row[k]] *)
Definition row_get (r : row) (k : string) : outcome (option string) :=
  match r !! k with
  | Some v => Ok v
  | None => Raise (KeyError k)
  end.

(** ** Statements *)

Inductive expr :=
  | EParam (p : string)          (* $p *)
  | EToInteger (p : string)      (* toInteger($p) *)
  | EToFloat (p : string).       (* toFloat($p) *)

(** [(n:Label {k1: e1, k2: e2, ...})] *)
Record node_pattern := NodePat {
  pat_label : string;
  pat_props : list (string * expr)
}.

Inductive query :=
  | CreateConstraint (label : string)
  | MergeNode (pat : node_pattern)
  | MatchMergeRel (a b : node_pattern) (ty : string)
                  (on_create : list (string * expr)).

Section Store.
Context `{Scalars}.

Inductive value :=
  | VInt (i : Z)
  | VFloat (f : float)
  | VStr (s : string).

(** Cypher's [=] on two non-null values, when it evaluates to [true]. *)
Definition value_eqb (a b : value) : bool :=
  match a, b with
  | VInt i, VInt j => Z.eqb i j
  | VStr s, VStr t => String.eqb s t
  | VFloat f, VFloat g => float_eqb f g
  | VInt i, VFloat f => int_float_eqb i f
  | VFloat f, VInt i => int_float_eqb i f
  | _, _ => false
  end.

Record node := Node {
  labels : list string;
  props : gmap string value
}.

(** A relationship; [src] and [dst] are positions in the node list. *)
Record rel := Rel {
  rtype : string;
  src : nat;
  dst : nat;
  rprops : gmap string value
}.

Record store := Store {
  nodes : list node;
  rels : list rel;
  constraints : list string
}.

Definition empty_store : store := Store [] [] [].

(** *** Expressions *)

Definition eval (ps : params) (e : expr) : outcome (option value) :=
  match e with
  | EParam p =>
      match ps !! p with
      | Some v => Ok (VStr <$> v)
      | None => Raise (ParameterMissing p)
      end
  | EToInteger p =>
      match ps !! p with
      | Some v => Ok (VInt <$> (v ≫= toInteger))
      | None => Raise (ParameterMissing p)
      end
  | EToFloat p =>
      match ps !! p with
      | Some v => Ok (VFloat <$> (v ≫= toFloat))
      | None => Raise (ParameterMissing p)
      end
  end.

Fixpoint eval_props (ps : params) (kes : list (string * expr))
  : outcome (list (string * option value)) :=
  match kes with
  | [] => Ok []
  | (k, e) :: kes' =>
      v ← eval ps e;
      vs ← eval_props ps kes';
      Ok ((k, v) :: vs)
  end.

(** The key of the first property whose value is null. *)
Fixpoint first_null (kvs : list (string * option value)) : option string :=
  match kvs with
  | [] => None
  | (k, None) :: _ => Some k
  | (_, Some _) :: kvs' => first_null kvs'
  end.

(** Property map written by [MERGE] / [SET]: setting a property to null
    stores nothing. *)
Fixpoint props_of (kvs : list (string * option value)) : gmap string value :=
  match kvs with
  | [] => ∅
  | (k, Some v) :: kvs' => <[k := v]> (props_of kvs')
  | (_, None) :: kvs' => props_of kvs'
  end.

Fixpoint assoc {A} (k : string) (kvs : list (string * A)) : option A :=
  match kvs with
  | [] => None
  | (k', v) :: kvs' => if String.eqb k' k then Some v else assoc k kvs'
  end.

(** *** Matching *)

Definition has_label (n : node) (l : string) : bool :=
  existsb (String.eqb l) (labels n).

(** [n.k = v]; a null on either side is never a match. *)
Definition prop_matches (n : node) (kv : string * option value) : bool :=
  match kv.2, props n !! kv.1 with
  | Some v, Some x => value_eqb x v
  | _, _ => false
  end.

Definition node_matches (l : string) (kvs : list (string * option value))
    (n : node) : bool :=
  has_label n l && forallb (prop_matches n) kvs.

Definition node_at_matches (s : store) (l : string)
    (kvs : list (string * option value)) (i : nat) : bool :=
  match nodes s !! i with
  | Some n => node_matches l kvs n
  | None => false
  end.

(** [MATCH (x:l {kvs})]: the positions of all matching nodes. *)
Definition match_nodes (s : store) (l : string)
    (kvs : list (string * option value)) : list nat :=
  List.filter (node_at_matches s l kvs) (seq 0 (length (nodes s))).

(** *** Uniqueness constraints on [id] *)

Definition constrained (s : store) (l : string) : bool :=
  existsb (String.eqb l) (constraints s).

Definition id_is (v : value) (l : string) (n : node) : bool :=
  has_label n l &&
  match props n !! "id"%string with
  | Some x => value_eqb x v
  | None => false
  end.

(** Would a new [l]-node with these properties clash with an existing
    one under the constraint on [l]? *)
Definition unique_conflict (s : store) (l : string)
    (kvs : list (string * option value)) : bool :=
  constrained s l &&
  match assoc "id"%string kvs with
  | Some (Some v) => existsb (id_is v l) (nodes s)
  | _ => false
  end.

Fixpoint has_dup (l : list value) : bool :=
  match l with
  | [] => false
  | x :: l' => existsb (value_eqb x) l' || has_dup l'
  end.

Definition ids_of (s : store) (l : string) : list value :=
  omap (λ n, if has_label n l then props n !! "id"%string else None) (nodes s).

(** *** Relationships *)

Definition rel_is (ty : string) (x y : nat) (r : rel) : bool :=
  String.eqb (rtype r) ty && Nat.eqb (src r) x && Nat.eqb (dst r) y.

Definition has_rel (s : store) (ty : string) (x y : nat) : bool :=
  existsb (rel_is ty x y) (rels s).

(** [MERGE (x)-[r:ty]->(y) ON CREATE SET r += ps] for one bound pair. *)
Definition merge_rel (ty : string) (ps : gmap string value)
    (s : store) (xy : nat * nat) : store :=
  if has_rel s ty xy.1 xy.2 then s
  else Store (nodes s) (rels s ++ [Rel ty xy.1 xy.2 ps]) (constraints s).

(** The same for every pair bound by the two [MATCH] clauses, in turn. *)
Definition merge_rels (ty : string) (ps : gmap string value)
    (pairs : list (nat * nat)) (s : store) : store :=
  fold_left (merge_rel ty ps) pairs s.

(** *** Execution of one statement *)

Definition exec (q : query) (ps : params) (s : store) : outcome store :=
  match q with
  | CreateConstraint l =>
      if constrained s l then Ok s
      else if has_dup (ids_of s l) then Raise (ConstraintCreationFailed l)
      else Ok (Store (nodes s) (rels s) (constraints s ++ [l]))
  | MergeNode pat =>
      kvs ← eval_props ps (pat_props pat);
      match first_null kvs with
      | Some k => Raise (MergeNullProperty k)
      | None =>
          match match_nodes s (pat_label pat) kvs with
          | _ :: _ => Ok s
          | [] =>
              if unique_conflict s (pat_label pat) kvs
              then Raise (ConstraintValidationFailed (pat_label pat))
              else Ok (Store (nodes s ++ [Node [pat_label pat] (props_of kvs)])
                             (rels s) (constraints s))
          end
      end
  | MatchMergeRel a b ty on_create =>
      avs ← eval_props ps (pat_props a);
      bvs ← eval_props ps (pat_props b);
      cvs ← eval_props ps on_create;
      let xs := match_nodes s (pat_label a) avs in
      let ys := match_nodes s (pat_label b) bvs in
      Ok (merge_rels ty (props_of cvs) (list_prod xs ys) s)
  end.

End Store.

(** ** The world a run acts on

    Besides the database the world records what the claims speak about:
    the statements handed to the store so far (in order), how many
    drivers were acquired and how many of them, and how many sessions,
    are still open.  [faults] is the store's availability during the
    coming calls: the n-th call that sends a statement fails with
    [ServiceUnavailable] when the n-th entry is [true]; past the end of
    the list the store is reachable.

    [pending] is the failure of the last statement sent with
    [session.run], as long as the store has reported it only with the
    result and the loader, which never fetches a result, has not met it
    yet.  [on_pull q e] tells whether the store reports the failure [e] of
    statement [q] that late (with the records, in answer to PULL) or at
    once (in answer to RUN); this belongs to the store, and nothing is
    assumed about it.  [uri_supported] tells whether the driver accepts the
    [NEO4J_URI] of the environment: it refuses an unset variable and a URI
    whose scheme it does not support. *)

Section Loader.
Context `{Scalars}.

Record world := World {
  db : store;
  issued : list (query * params);
  faults : list bool;
  drivers_acquired : nat;
  drivers_open : nat;
  sessions_open : nat;
  slept : nat;
  pending : option exn;
  on_pull : query → exn → bool;
  uri_supported : bool
}.

(** A world with nothing done yet: the store is reachable and reports
    every failure at once, the URI is one the driver accepts. *)
Definition fresh_world (s : store) : world :=
  World s [] [] 0 0 0 0 None (λ _ _, false) true.

(** Computations that may raise; the world survives an exception. *)
Definition M (A : Type) : Type := world → outcome A * world.

Definition ret {A} (a : A) : M A := λ w, (Ok a, w).

Definition bind {A B} (m : M A) (f : A → M B) : M B := λ w,
  match m w with
  | (Ok a, w') => f a w'
  | (Raise e, w') => (Raise e, w')
  end.

Definition lift {A} (o : outcome A) : M A := λ w, (o, w).

#[export] Instance M_ret : MRet M := @ret.
#[export] Instance M_bind : MBind M := λ A B f m, bind m f.

(** [for x in xs: body(x)] *)
Fixpoint for_each {A} (xs : list A) (body : A → M unit) : M unit :=
  match xs with
  | [] => ret tt
  | x :: xs' => body x;; for_each xs' body
  end.

(** [GraphDatabase.driver(NEO4J_URI, auth=...)]: checks the URI and builds
    the driver object; no connection is made before the first statement.
    A URI the driver cannot use raises [ConfigurationError], and no driver
    comes into being. *)
Definition acquired (w : world) : world :=
  World (db w) (issued w) (faults w) (S (drivers_acquired w))
        (S (drivers_open w)) (sessions_open w) (slept w) (pending w)
        (on_pull w) (uri_supported w).

Definition GraphDatabase_driver : M unit := λ w,
  if uri_supported w then (Ok tt, acquired w)
  else (Raise ConfigurationError, w).

(** [driver.close()] *)
Definition released (w : world) : world :=
  World (db w) (issued w) (faults w) (drivers_acquired w)
        (pred (drivers_open w)) (sessions_open w) (slept w) (pending w)
        (on_pull w) (uri_supported w).

Definition driver_close : M unit := λ w, (Ok tt, released w).

(** No failure is pending (any more). *)
Definition forget (w : world) : world :=
  World (db w) (issued w) (faults w) (drivers_acquired w) (drivers_open w)
        (sessions_open w) (slept w) None (on_pull w) (uri_supported w).

(** A new session has no result yet. *)
Definition session_enter (w : world) : world :=
  World (db w) (issued w) (faults w) (drivers_acquired w) (drivers_open w)
        (S (sessions_open w)) (slept w) None (on_pull w) (uri_supported w).

(** Closing a session drops what is left of its last result: a failure
    still pending there is lost. *)
Definition session_exit (w : world) : world :=
  World (db w) (issued w) (faults w) (drivers_acquired w) (drivers_open w)
        (pred (sessions_open w)) (slept w) None (on_pull w) (uri_supported w).

(** The same world with one more session open. *)
Definition opened (w : world) : world :=
  World (db w) (issued w) (faults w) (drivers_acquired w) (drivers_open w)
        (S (sessions_open w)) (slept w) (pending w) (on_pull w)
        (uri_supported w).

(** [with driver.session(database="neo4j") as session: body]: the session
    is closed when the block is left, normally or by an exception. *)
Definition with_session {A} (body : M A) : M A := λ w,
  let (r, w') := body (session_enter w) in (r, session_exit w').

(** [time.sleep(d)] *)
Definition sleep (d : nat) (w : world) : world :=
  World (db w) (issued w) (faults w) (drivers_acquired w) (drivers_open w)
        (sessions_open w) (slept w + d) (pending w) (on_pull w)
        (uri_supported w).

(** [with open(PATH, 'r') as f: reader = csv.DictReader(f); body]:
    [None] stands for an unset path or a file that cannot be opened. *)
Definition with_open {A} (file : option (list row))
    (body : list row → M A) : M A :=
  match file with
  | Some reader => body reader
  | None => lift (Raise OpenFailed)
  end.

(** The same world with the store reachable from now on. *)
Definition reachable (w : world) : world :=
  World (db w) (issued w) [] (drivers_acquired w) (drivers_open w)
        (sessions_open w) (slept w) (pending w) (on_pull w)
        (uri_supported w).

(** The store answers one statement: the statement is logged, one entry
    of the availability schedule is consumed, and the database changes
    only when the statement succeeds. *)
Definition answered (w : world) (q : query) (ps : params) (s : store) : world :=
  World s (issued w ++ [(q, ps)]) (tail (faults w)) (drivers_acquired w)
        (drivers_open w) (sessions_open w) (slept w) (pending w)
        (on_pull w) (uri_supported w).

(** The failure [e] of the statement just sent waits in its result. *)
Definition postponed (e : exn) (w : world) : world :=
  World (db w) (issued w) (faults w) (drivers_acquired w) (drivers_open w)
        (sessions_open w) (slept w) (Some e) (on_pull w) (uri_supported w).

(** [tx.run(q, ps)] inside [session.execute_write]: the transaction is
    committed before [execute_write] returns, so a failure of the
    statement is raised by the call, however late the store reports
    it. *)
Definition tx_run (q : query) (ps : params) : M unit := λ w,
  match faults w with
  | true :: _ => (Raise ServiceUnavailable, answered w q ps (db w))
  | _ =>
      match exec q ps (db w) with
      | Ok s' => (Ok tt, answered w q ps s')
      | Raise e => (Raise e, answered w q ps (db w))
      end
  end.

(** [session.run(q, **ps)]: one auto-committed statement, whose result
    the caller gets back.  The driver first fetches what is left of the
    session's previous result, which raises a failure pending there; the
    new statement is then not sent.  Otherwise the statement is sent, and
    a failure the store reports at once is raised; one it reports with the
    result stays pending. *)
Definition session_run (q : query) (ps : params) : M unit := λ w,
  match pending w with
  | Some e => (Raise e, forget w)
  | None =>
      match faults w with
      | true :: _ => (Raise ServiceUnavailable, answered w q ps (db w))
      | _ =>
          match exec q ps (db w) with
          | Ok s' => (Ok tt, answered w q ps s')
          | Raise e =>
              if on_pull w q e
              then (Ok tt, postponed e (answered w q ps (db w)))
              else (Raise e, answered w q ps (db w))
          end
      end
  end.

(** [session.execute_write(f, arg)], with [f] a function of the
    transaction issuing one statement through [tx.run].  (The driver
    calls [f] again by itself for a while when the store is unreachable;
    an entry [true] of [faults] stands for a call that gave up.) *)
Definition execute_write {A} (f : (query → params → M unit) → A → M unit)
    (arg : A) : M unit :=
  f tx_run arg.

(** ** The program *)

Definition NODES : list string :=
  ["Hospital"; "Payer"; "Physician"; "Patient"; "Visit"; "Review"]%string.

Definition _set_uniqueness_constraints (tx_run : query → params → M unit)
    (node : string) : M unit :=
  tx_run (CreateConstraint node) ∅.

(** The six CSV files, as the paths of the environment resolve. *)
Record inputs := Inputs {
  HOSPITALS_CSV : option (list row);
  PAYERS_CSV : option (list row);
  PHYSICIANS_CSV : option (list row);
  PATIENTS_CSV : option (list row);
  VISITS_CSV : option (list row);
  REVIEWS_CSV : option (list row)
}.

(** *** The statements, as written in the source *)

Local Open Scope string_scope.

Definition merge_hospital : query :=
  MergeNode (NodePat "Hospital"
    [("id", EToInteger "id"); ("name", EParam "name");
     ("state_name", EParam "state")]).

Definition merge_payer : query :=
  MergeNode (NodePat "Payer"
    [("id", EToInteger "id"); ("name", EParam "name")]).

Definition merge_physician : query :=
  MergeNode (NodePat "Physician"
    [("id", EToInteger "id"); ("name", EParam "name"); ("dob", EParam "dob");
     ("grad_year", EParam "grad_year"); ("school", EParam "school");
     ("salary", EToFloat "salary")]).

Definition merge_patient : query :=
  MergeNode (NodePat "Patient"
    [("id", EToInteger "id"); ("name", EParam "name"); ("sex", EParam "sex");
     ("dob", EParam "dob"); ("blood_type", EParam "blood_type")]).

Definition merge_visit : query :=
  MergeNode (NodePat "Visit"
    [("id", EToInteger "id"); ("room_number", EToInteger "room_number");
     ("admission_type", EParam "admission_type");
     ("admission_date", EParam "admission_date");
     ("test_results", EParam "test_results"); ("status", EParam "status");
     ("chief_complaint", EParam "chief_complaint");
     ("treatment_description", EParam "treatment_description");
     ("diagnosis", EParam "diagnosis");
     ("discharge_date", EParam "discharge_date")]).

Definition merge_review : query :=
  MergeNode (NodePat "Review"
    [("id", EToInteger "id"); ("text", EParam "text");
     ("patient_name", EParam "patient_name");
     ("physician_name", EParam "physician_name");
     ("hospital_name", EParam "hospital_name")]).

Definition merge_at : query :=
  MatchMergeRel (NodePat "Visit" [("id", EToInteger "visit_id")])
                (NodePat "Hospital" [("id", EToInteger "hospital_id")])
                "AT" [].

Definition merge_writes : query :=
  MatchMergeRel (NodePat "Visit" [("id", EToInteger "visit_id")])
                (NodePat "Review" [("id", EToInteger "review_id")])
                "WRITES" [].

Definition merge_treats : query :=
  MatchMergeRel (NodePat "Physician" [("id", EToInteger "physician_id")])
                (NodePat "Visit" [("id", EToInteger "visit_id")])
                "TREATS" [].

Definition merge_covered_by : query :=
  MatchMergeRel (NodePat "Visit" [("id", EToInteger "visit_id")])
                (NodePat "Payer" [("id", EToInteger "payer_id")])
                "COVERED_BY"
                [("service_date", EParam "service_date");
                 ("billing_amount", EToFloat "billing_amount")].

Definition merge_has : query :=
  MatchMergeRel (NodePat "Patient" [("id", EToInteger "patient_id")])
                (NodePat "Visit" [("id", EToInteger "visit_id")])
                "HAS" [].

Definition merge_employs : query :=
  MatchMergeRel (NodePat "Hospital" [("id", EToInteger "hospital_id")])
                (NodePat "Physician" [("id", EToInteger "physician_id")])
                "EMPLOYS" [].

(** *** The keyword arguments of each [session.run], built from a row.
    Python evaluates them left to right; the first missing column raises
    [KeyError]. *)

Definition hospital_kwargs (r : row) : outcome params :=
  id ← row_get r "hospital_id";
  name ← row_get r "hospital_name";
  state ← row_get r "hospital_state";
  mret (list_to_map [("id", id); ("name", name); ("state", state)]).

Definition payer_kwargs (r : row) : outcome params :=
  id ← row_get r "payer_id";
  name ← row_get r "payer_name";
  mret (list_to_map [("id", id); ("name", name)]).

Definition physician_kwargs (r : row) : outcome params :=
  id ← row_get r "physician_id";
  name ← row_get r "physician_name";
  dob ← row_get r "physician_dob";
  grad_year ← row_get r "physician_grad_year";
  school ← row_get r "medical_school";
  salary ← row_get r "salary";
  mret (list_to_map [("id", id); ("name", name); ("dob", dob);
                     ("grad_year", grad_year); ("school", school);
                     ("salary", salary)]).

Definition patient_kwargs (r : row) : outcome params :=
  id ← row_get r "patient_id";
  name ← row_get r "patient_name";
  sex ← row_get r "patient_sex";
  dob ← row_get r "patient_dob";
  blood_type ← row_get r "patient_blood_type";
  mret (list_to_map [("id", id); ("name", name); ("sex", sex); ("dob", dob);
                     ("blood_type", blood_type)]).

Definition visit_kwargs (r : row) : outcome params :=
  id ← row_get r "visit_id";
  room_number ← row_get r "room_number";
  admission_type ← row_get r "admission_type";
  admission_date ← row_get r "date_of_admission";
  test_results ← row_get r "test_results";
  status ← row_get r "visit_status";
  chief_complaint ← row_get r "chief_complaint";
  treatment_description ← row_get r "treatment_description";
  diagnosis ← row_get r "primary_diagnosis";
  discharge_date ← row_get r "discharge_date";
  mret (list_to_map
          [("id", id); ("room_number", room_number);
           ("admission_type", admission_type);
           ("admission_date", admission_date);
           ("test_results", test_results); ("status", status);
           ("chief_complaint", chief_complaint);
           ("treatment_description", treatment_description);
           ("diagnosis", diagnosis); ("discharge_date", discharge_date)]).

Definition review_kwargs (r : row) : outcome params :=
  id ← row_get r "review_id";
  text ← row_get r "review";
  patient_name ← row_get r "patient_name";
  physician_name ← row_get r "physician_name";
  hospital_name ← row_get r "hospital_name";
  mret (list_to_map [("id", id); ("text", text);
                     ("patient_name", patient_name);
                     ("physician_name", physician_name);
                     ("hospital_name", hospital_name)]).

Definition at_kwargs (r : row) : outcome params :=
  visit_id ← row_get r "visit_id";
  hospital_id ← row_get r "hospital_id";
  mret (list_to_map [("visit_id", visit_id); ("hospital_id", hospital_id)]).

Definition writes_kwargs (r : row) : outcome params :=
  visit_id ← row_get r "visit_id";
  review_id ← row_get r "review_id";
  mret (list_to_map [("visit_id", visit_id); ("review_id", review_id)]).

Definition treats_kwargs (r : row) : outcome params :=
  physician_id ← row_get r "physician_id";
  visit_id ← row_get r "visit_id";
  mret (list_to_map [("physician_id", physician_id); ("visit_id", visit_id)]).

Definition covered_by_kwargs (r : row) : outcome params :=
  visit_id ← row_get r "visit_id";
  payer_id ← row_get r "payer_id";
  service_date ← row_get r "discharge_date";
  billing_amount ← row_get r "billing_amount";
  mret (list_to_map [("visit_id", visit_id); ("payer_id", payer_id);
                     ("service_date", service_date);
                     ("billing_amount", billing_amount)]).

Definition has_kwargs (r : row) : outcome params :=
  patient_id ← row_get r "patient_id";
  visit_id ← row_get r "visit_id";
  mret (list_to_map [("patient_id", patient_id); ("visit_id", visit_id)]).

Definition employs_kwargs (r : row) : outcome params :=
  hospital_id ← row_get r "hospital_id";
  physician_id ← row_get r "physician_id";
  mret (list_to_map [("hospital_id", hospital_id);
                     ("physician_id", physician_id)]).

(** The loops of the source, as pairs of a statement and the keyword
    arguments it is run with. *)
Definition node_loaders : list (query * (row → outcome params)) :=
  [(merge_hospital, hospital_kwargs); (merge_payer, payer_kwargs);
   (merge_physician, physician_kwargs); (merge_patient, patient_kwargs);
   (merge_visit, visit_kwargs); (merge_review, review_kwargs)].

Definition rel_loaders : list (query * (row → outcome params)) :=
  [(merge_at, at_kwargs); (merge_writes, writes_kwargs);
   (merge_treats, treats_kwargs); (merge_covered_by, covered_by_kwargs);
   (merge_has, has_kwargs); (merge_employs, employs_kwargs)].

(** [session.run(q, **kwargs(row))] *)
Definition run_row (q : query) (kwargs : row → outcome params)
    (r : row) : M unit :=
  ps ← lift (kwargs r);
  session_run q ps.

(** One [with open(...)] block of the source: open the file, open a
    session, send one statement per row. *)
Definition load_file (file : option (list row)) (q : query)
    (kwargs : row → outcome params) : M unit :=
  with_open file (λ reader,
    with_session (for_each reader (run_row q kwargs))).

(** The body of [load_hospital_graph_from_csv] (one attempt). *)
Definition load_hospital_graph_from_csv (inp : inputs) : M unit :=
  GraphDatabase_driver;;
  with_session
    (for_each NODES (λ node,
       execute_write _set_uniqueness_constraints node));;
  load_file (HOSPITALS_CSV inp) merge_hospital hospital_kwargs;;
  load_file (PAYERS_CSV inp) merge_payer payer_kwargs;;
  load_file (PHYSICIANS_CSV inp) merge_physician physician_kwargs;;
  load_file (PATIENTS_CSV inp) merge_patient patient_kwargs;;
  load_file (VISITS_CSV inp) merge_visit visit_kwargs;;
  load_file (REVIEWS_CSV inp) merge_review review_kwargs;;
  load_file (VISITS_CSV inp) merge_at at_kwargs;;
  load_file (REVIEWS_CSV inp) merge_writes writes_kwargs;;
  load_file (VISITS_CSV inp) merge_treats treats_kwargs;;
  load_file (VISITS_CSV inp) merge_covered_by covered_by_kwargs;;
  load_file (VISITS_CSV inp) merge_has has_kwargs;;
  load_file (VISITS_CSV inp) merge_employs employs_kwargs;;
  driver_close.

(** *** [@retry(tries=100, delay=10)]

    The decorator of the [retry] package with its default
    [exceptions=Exception]: while attempts are left, call the function and
    return its result; on any exception count the attempt, re-raise if
    none is left, otherwise sleep [delay] seconds and go round again.
    With no attempt at all the loop falls through and [None] is
    returned. *)
Fixpoint retry_call {A} (f : M A) (tries delay : nat) : M (option A) := λ w,
  match tries with
  | 0 => (Ok None, w)
  | S tries' =>
      match f w with
      | (Ok a, w') => (Ok (Some a), w')
      | (Raise e, w') =>
          match tries' with
          | 0 => (Raise e, w')
          | S _ => retry_call f tries' delay (sleep delay w')
          end
      end
  end.

(** The decorated function, as [__main__] calls it. *)
Definition main (inp : inputs) : M (option unit) :=
  retry_call (load_hospital_graph_from_csv inp) 100 10.

(** ** The run as a list of actions

    What an attempt does between acquiring and closing the driver is
    determined by the input files alone: a fixed sequence of actions, each
    a statement sent to the store, a Python exception raised while
    preparing one, or the opening or closing of a session.  The loader
    stops at the first action that raises. *)

Inductive action :=
  | ARaise (e : exn)                      (* an exception of Python's *)
  | ARun (q : query) (ps : params)        (* session.run(q, **ps) *)
  | ATx (q : query) (ps : params)         (* tx.run(q, ps) in execute_write *)
  | ASession.                             (* a session is opened or closed *)

(** The statement an action sends, if it sends one. *)
Definition statement (a : action) : option (query * params) :=
  match a with
  | ARun q ps | ATx q ps => Some (q, ps)
  | ARaise _ | ASession => None
  end.

Definition row_action (q : query) (kwargs : row → outcome params)
    (r : row) : action :=
  match kwargs r with
  | Ok ps => ARun q ps
  | Raise e => ARaise e
  end.

Definition file_actions (file : option (list row)) (q : query)
    (kwargs : row → outcome params) : list action :=
  match file with
  | Some reader => ASession :: map (row_action q kwargs) reader ++ [ASession]
  | None => [ARaise OpenFailed]
  end.

Definition constraint_actions : list action :=
  ASession :: map (λ node, ATx (CreateConstraint node) ∅) NODES ++ [ASession].

(** The twelve [with open(...)] blocks of the source, in order: the file
    read, the statement, the keyword arguments. *)
Definition node_loads (inp : inputs)
  : list (option (list row) * query * (row → outcome params)) :=
  [(HOSPITALS_CSV inp, merge_hospital, hospital_kwargs);
   (PAYERS_CSV inp, merge_payer, payer_kwargs);
   (PHYSICIANS_CSV inp, merge_physician, physician_kwargs);
   (PATIENTS_CSV inp, merge_patient, patient_kwargs);
   (VISITS_CSV inp, merge_visit, visit_kwargs);
   (REVIEWS_CSV inp, merge_review, review_kwargs)].

Definition rel_loads (inp : inputs)
  : list (option (list row) * query * (row → outcome params)) :=
  [(VISITS_CSV inp, merge_at, at_kwargs);
   (REVIEWS_CSV inp, merge_writes, writes_kwargs);
   (VISITS_CSV inp, merge_treats, treats_kwargs);
   (VISITS_CSV inp, merge_covered_by, covered_by_kwargs);
   (VISITS_CSV inp, merge_has, has_kwargs);
   (VISITS_CSV inp, merge_employs, employs_kwargs)].

Definition load_actions
    (ld : option (list row) * query * (row → outcome params)) : list action :=
  file_actions ld.1.1 ld.1.2 ld.2.

Definition node_actions (inp : inputs) : list action :=
  flat_map load_actions (node_loads inp).

Definition rel_actions (inp : inputs) : list action :=
  flat_map load_actions (rel_loads inp).

Definition program (inp : inputs) : list action :=
  constraint_actions ++ node_actions inp ++ rel_actions inp.

Definition act (a : action) : M unit :=
  match a with
  | ARaise e => lift (Raise e)
  | ARun q ps => session_run q ps
  | ATx q ps => tx_run q ps
  | ASession => λ w, (Ok tt, forget w)
  end.

(** An exception leaves through the [with] block of the session, if one
    is open: nothing is pending afterwards. *)
Fixpoint perform (l : list action) : M unit := λ w,
  match l with
  | [] => (Ok tt, w)
  | a :: l' =>
      match act a w with
      | (Ok _, w') => perform l' w'
      | (Raise e, w') => (Raise e, forget w')
      end
  end.

(** The same on the database alone, with the store reachable: [late] is
    the store's [on_pull], [pend] the failure pending at the start. *)
Fixpoint run_actions (late : query → exn → bool) (l : list action)
    (pend : option exn) (s : store) : outcome unit * store :=
  match l with
  | [] => (Ok tt, s)
  | ARaise e :: _ => (Raise e, s)
  | ASession :: l' => run_actions late l' None s
  | ATx q ps :: l' =>
      match exec q ps s with
      | Ok s' => run_actions late l' pend s'
      | Raise e => (Raise e, s)
      end
  | ARun q ps :: l' =>
      match pend with
      | Some e => (Raise e, s)
      | None =>
          match exec q ps s with
          | Ok s' => run_actions late l' None s'
          | Raise e =>
              if late q e then run_actions late l' (Some e) s
              else (Raise e, s)
          end
      end
  end.

(** The statements among a list of actions. *)
Definition statements (l : list action) : list (query * params) :=
  omap statement l.

(** The step a statement belongs to: constraints, nodes, relationships. *)
Definition phase (qp : query * params) : nat :=
  match qp.1 with
  | CreateConstraint _ => 0
  | MergeNode _ => 1
  | MatchMergeRel _ _ _ _ => 2
  end.

(** The world in which attempt number [i] (counted from 0) of a retried
    call starts when all the attempts before it raised: after each of
    them [delay] seconds are slept. *)
Fixpoint attempt_start {A} (f : M A) (delay : nat) (i : nat) (w : world)
  : world :=
  match i with
  | 0 => w
  | S i' => sleep delay (f (attempt_start f delay i' w)).2
  end.

End Loader.

(** ** A concrete instance of the scalars: decimal numerals

    Used to run the loader on concrete files.  [toInteger] reads an
    optionally signed string of digits, [toFloat] an optionally signed
    decimal numeral with at most one point; a float is kept as a pair
    [(m, d)] standing for [m / 10^d].  Anything else is null. *)

Definition digit_of (c : ascii) : option Z :=
  let n := nat_of_ascii c in
  if (48 <=? n) && (n <=? 57) then Some (Z.of_nat (n - 48)) else None.

Fixpoint parse_digits (s : string) (acc : Z) : option Z :=
  match s with
  | EmptyString => Some acc
  | String c s' => d ← digit_of c; parse_digits s' (10 * acc + d)%Z
  end.

Definition parse_nat (s : string) : option Z :=
  match s with
  | EmptyString => None
  | _ => parse_digits s 0%Z
  end.

Definition parse_int (s : string) : option Z :=
  match s with
  | String "-"%char s' => Z.opp <$> parse_nat s'
  | _ => parse_nat s
  end.

(** Digits after the point, with their count. *)
Fixpoint parse_fraction (s : string) (acc : Z) (d : nat) : option (Z * nat) :=
  match s with
  | EmptyString => Some (acc, d)
  | String c s' => x ← digit_of c; parse_fraction s' (10 * acc + x)%Z (S d)
  end.

Fixpoint parse_unsigned_decimal (s : string) (acc : Z) : option (Z * nat) :=
  match s with
  | EmptyString => Some (acc, 0)
  | String "."%char s' => parse_fraction s' acc 0
  | String c s' => x ← digit_of c; parse_unsigned_decimal s' (10 * acc + x)%Z
  end.

Definition parse_decimal (s : string) : option (Z * nat) :=
  match s with
  | EmptyString => None
  | String "-"%char s' =>
      match s' with
      | EmptyString => None
      | _ => (λ md, (Z.opp md.1, md.2)) <$> parse_unsigned_decimal s' 0%Z
      end
  | _ => parse_unsigned_decimal s 0%Z
  end.

Definition decimal_eqb (a b : Z * nat) : bool :=
  (a.1 * 10 ^ Z.of_nat b.2 =? b.1 * 10 ^ Z.of_nat a.2)%Z.

Definition decimal : Scalars := {|
  float := Z * nat;
  toInteger := parse_int;
  toFloat := parse_decimal;
  float_eqb := decimal_eqb;
  int_float_eqb := λ i f, decimal_eqb (i, 0) f
|}.

(** ** Example files

    The scenario of the specification: one hospital, one payer, one
    physician, one patient, one visit referencing all four, and one review
    of that visit. *)

Section Examples.
Local Open Scope string_scope.

Definition mk_row (fields : list (string * string)) : row :=
  list_to_map ((λ kv, (kv.1, Some kv.2)) <$> fields).

Definition hospital_1 : row :=
  mk_row [("hospital_id", "1"); ("hospital_name", "General");
          ("hospital_state", "CA")].


Definition payer_5 : row :=
  mk_row [("payer_id", "5"); ("payer_name", "Medicaid")].

Definition physician_7 : row :=
  mk_row [("physician_id", "7"); ("physician_name", "Joseph Johnson");
          ("physician_dob", "1970-02-22"); ("physician_grad_year", "2000-02-22");
          ("medical_school", "Johns Hopkins"); ("salary", "309534.15")].


Definition patient_10 : row :=
  mk_row [("patient_id", "10"); ("patient_name", "Tiffany Ramirez");
          ("patient_sex", "Female"); ("patient_dob", "1994-10-06");
          ("patient_blood_type", "O+")].

Definition visit_fields (billing_amount : string) : list (string * string) :=
  [("visit_id", "100"); ("room_number", "146");
   ("admission_type", "Elective"); ("date_of_admission", "2022-11-17");
   ("test_results", "Inconclusive"); ("visit_status", "DISCHARGED");
   ("chief_complaint", "Shortness of breath");
   ("treatment_description", "Bronchodilators");
   ("primary_diagnosis", "J45.909"); ("discharge_date", "2022-12-01");
   ("hospital_id", "1"); ("physician_id", "7"); ("patient_id", "10");
   ("payer_id", "5"); ("billing_amount", billing_amount)].

Definition visit_100 : row := mk_row (visit_fields "37490.98").

(** The same visit billed another amount. *)
Definition visit_100_rebilled : row := mk_row (visit_fields "40000.00").


Definition review_1000 : row :=
  mk_row [("review_id", "1000"); ("visit_id", "100");
          ("review", "The staff were attentive.");
          ("patient_name", "Tiffany Ramirez");
          ("physician_name", "Joseph Johnson");
          ("hospital_name", "General")].

Definition example_files : inputs :=
  Inputs (Some [hospital_1]) (Some [payer_5]) (Some [physician_7])
         (Some [patient_10]) (Some [visit_100]) (Some [review_1000]).

(** The visit refers to hospital 1, which the hospitals file lacks. *)
Definition files_without_hospital : inputs :=
  Inputs (Some []) (Some [payer_5]) (Some [physician_7])
         (Some [patient_10]) (Some [visit_100]) (Some [review_1000]).

(** The hospitals file cannot be opened. *)
Definition files_hospitals_unreadable : inputs :=
  Inputs None (Some [payer_5]) (Some [physician_7])
         (Some [patient_10]) (Some [visit_100]) (Some [review_1000]).


Definition files_rebilled : inputs :=
  Inputs (Some [hospital_1]) (Some [payer_5]) (Some [physician_7])
         (Some [patient_10]) (Some [visit_100_rebilled]) (Some [review_1000]).




(** The [COVERED_BY] relationship of visit 100 (node 4) and payer 5
    (node 1) as the first load of [example_files] creates it. *)
Definition covered_by_100_5 : @rel decimal :=
  Rel "COVERED_BY" 4 1
    (props_of [("service_date", Some (VStr "2022-12-01"));
               ("billing_amount",
                Some (VFloat ((3749098%Z, 2) : @float decimal)))]).



(** The empty database behind a store that is unreachable during the
    next two calls. *)
Definition outage_world : @world decimal :=
  World empty_store [] [true; true] 0 0 0 0 None (λ _ _, false) true.

(** A run on the empty database, the store reachable and reporting every
    failure at once. *)
Definition clean_world : @world decimal := fresh_world empty_store.


(** The same as [clean_world] with [NEO4J_URI] unset. *)
Definition unconfigured_world : @world decimal :=
  World empty_store [] [] 0 0 0 0 None (λ _ _, false) false.


End Examples.

(** ** Where each relationship type is said to come from

    For each relationship type: the file it is derived from, and for its
    source and target node the label and the column holding the business
    key. *)

Record rel_source := RelSource {
  rs_type : string;
  rs_file : inputs → option (list row);
  rs_src_label : string;
  rs_src_column : string;
  rs_dst_label : string;
  rs_dst_column : string
}.

Definition rel_sources : list rel_source :=
  [RelSource "AT" VISITS_CSV "Visit" "visit_id" "Hospital" "hospital_id";
   RelSource "WRITES" REVIEWS_CSV "Visit" "visit_id" "Review" "review_id";
   RelSource "TREATS" VISITS_CSV "Physician" "physician_id" "Visit" "visit_id";
   RelSource "COVERED_BY" VISITS_CSV "Visit" "visit_id" "Payer" "payer_id";
   RelSource "HAS" VISITS_CSV "Patient" "patient_id" "Visit" "visit_id";
   RelSource "EMPLOYS" VISITS_CSV "Hospital" "hospital_id"
             "Physician" "physician_id"]%string.

(** ** Where each node label comes from

    For each label: the file it is loaded from, the column holding the
    business key, and for each property the column it is read from and
    the coercion applied to it. *)

Inductive coercion := AsString | AsInteger | AsFloat.

Record node_source := NodeSource {
  ns_label : string;
  ns_file : inputs → option (list row);
  ns_key : string;
  ns_props : list (string * string * coercion)
}.

Definition node_sources : list node_source :=
  [NodeSource "Hospital" HOSPITALS_CSV "hospital_id"
     [("id", "hospital_id", AsInteger); ("name", "hospital_name", AsString);
      ("state_name", "hospital_state", AsString)];
   NodeSource "Payer" PAYERS_CSV "payer_id"
     [("id", "payer_id", AsInteger); ("name", "payer_name", AsString)];
   NodeSource "Physician" PHYSICIANS_CSV "physician_id"
     [("id", "physician_id", AsInteger); ("name", "physician_name", AsString);
      ("dob", "physician_dob", AsString);
      ("grad_year", "physician_grad_year", AsString);
      ("school", "medical_school", AsString); ("salary", "salary", AsFloat)];
   NodeSource "Patient" PATIENTS_CSV "patient_id"
     [("id", "patient_id", AsInteger); ("name", "patient_name", AsString);
      ("sex", "patient_sex", AsString); ("dob", "patient_dob", AsString);
      ("blood_type", "patient_blood_type", AsString)];
   NodeSource "Visit" VISITS_CSV "visit_id"
     [("id", "visit_id", AsInteger); ("room_number", "room_number", AsInteger);
      ("admission_type", "admission_type", AsString);
      ("admission_date", "date_of_admission", AsString);
      ("test_results", "test_results", AsString);
      ("status", "visit_status", AsString);
      ("chief_complaint", "chief_complaint", AsString);
      ("treatment_description", "treatment_description", AsString);
      ("diagnosis", "primary_diagnosis", AsString);
      ("discharge_date", "discharge_date", AsString)];
   NodeSource "Review" REVIEWS_CSV "review_id"
     [("id", "review_id", AsInteger); ("text", "review", AsString);
      ("patient_name", "patient_name", AsString);
      ("physician_name", "physician_name", AsString);
      ("hospital_name", "hospital_name", AsString)]]%string.

(** ** Notions used to state and prove the properties *)

Section Notions.
Context `{Scalars}.

(** Statements only ever append: nodes, relationships and constraints
    already present keep their position and their contents. *)
Definition extends (s s' : store) : Prop :=
  nodes s `prefix_of` nodes s' ∧
  rels s `prefix_of` rels s' ∧
  constraints s `prefix_of` constraints s'.

(** An action is quiet on a database when performing it there leaves the
    database as it is (it may raise). *)
Definition quiet (s : store) (a : action) : Prop :=
  match statement a with
  | Some (q, ps) =>
      match exec q ps s with
      | Ok s' => s' = s
      | Raise _ => True
      end
  | None => True
  end.

Definition is_rel_query (q : query) : bool :=
  match q with
  | MatchMergeRel _ _ _ _ => true
  | _ => false
  end.

(** Actions of the relationship step: they never touch nodes. *)
Definition rel_step (a : action) : bool :=
  match statement a with
  | Some (q, _) => is_rel_query q
  | None => true
  end.

(** Actions of the constraint and node steps. *)
Definition node_step (a : action) : bool :=
  match statement a with
  | Some (q, _) => negb (is_rel_query q)
  | None => true
  end.

(** A node merge of the loader: its label is under a uniqueness
    constraint and its [id] is an integer read from a parameter.
    Constraints are declared in transactions only. *)
Definition keyed (s : store) (a : action) : Prop :=
  match a with
  | ARun (MergeNode pat) _ | ATx (MergeNode pat) _ =>
      constrained s (pat_label pat) = true ∧
      ∃ p, assoc "id"%string (pat_props pat) = Some (EToInteger p)
  | ARun (CreateConstraint _) _ => False
  | _ => True
  end.

(** The errors that stand for a transient condition of the store
    (connection drop, timeout, temporary unavailability); all others come
    from the configuration or from the data. *)
Definition transient (e : exn) : bool :=
  match e with
  | ServiceUnavailable => true
  | _ => false
  end.

(** The nodes a [MATCH] clause binds, given the statement parameters. *)
Definition endpoint_matches (s : store) (ps : params)
    (pat : node_pattern) : list nat :=
  match eval_props ps (pat_props pat) with
  | Ok kvs => match_nodes s (pat_label pat) kvs
  | Raise _ => []
  end.

(** The step of the statement an action sends, if it sends one. *)
Definition action_phase (n : nat) (a : action) : Prop :=
  match statement a with
  | Some qp => phase qp = n
  | None => True
  end.

(** Relationships are only added, and only between ordered pairs of
    nodes that had none of that type. *)
Definition rels_grow (s s' : store) : Prop :=
  ∃ new, rels s' = rels s ++ new ∧
    ∀ r, r ∈ new → has_rel s (rtype r) (src r) (dst r) = false.

(** Relationship [r] is what the statement of action [a] creates between
    two nodes of [s] that its [MATCH] clauses bind. *)
Definition creates (s : store) (a : action) (r : rel) : Prop :=
  match statement a with
  | Some (MatchMergeRel pa pb ty oc, ps) =>
      ∃ avs bvs cvs,
        eval_props ps (pat_props pa) = Ok avs ∧
        eval_props ps (pat_props pb) = Ok bvs ∧
        eval_props ps oc = Ok cvs ∧
        rtype r = ty ∧ rprops r = props_of cvs ∧
        node_at_matches s (pat_label pa) avs (src r) = true ∧
        node_at_matches s (pat_label pb) bvs (dst r) = true
  | _ => False
  end.

(** What a run may do to the relationships: the database grows, no pair
    gets a second relationship of a type, and every new relationship is
    created by an action of the list. *)
Definition rels_from (l : list action) (s s' : store) : Prop :=
  extends s s' ∧ rels_grow s s' ∧
  ∀ r, r ∈ rels s' → r ∈ rels s ∨ ∃ a, a ∈ l ∧ creates s' a r.

(** Node number [x] carries label [l] and its [id] equals the integer read
    from the CSV field [v]. *)
Definition node_keyed_by (s : store) (l : string) (v : option string)
    (x : nat) : Prop :=
  node_at_matches s l [("id"%string, VInt <$> (v ≫= toInteger))] x = true.

(** The expression coerces a parameter holding a string that cannot be
    coerced. *)
Definition coerced_null (ps : params) (e : expr) : Prop :=
  match e with
  | EToInteger p => ∃ str, ps !! p = Some (Some str) ∧ toInteger str = None
  | EToFloat p => ∃ str, ps !! p = Some (Some str) ∧ toFloat str = None
  | EParam _ => False
  end.

(** The six constraint declarations, one per label of [NODES]. *)
Definition constraint_statements : list (query * params) :=
  (λ node, (CreateConstraint node, ∅)) <$> NODES.

(** Every label of [NODES] is under its uniqueness constraint. *)
Definition all_constrained (s : store) : Prop :=
  Forall (λ l, constrained s l = true) NODES.

(** Once a relationship statement has been reached, only the
    relationship step follows. *)
Fixpoint phased (l : list action) : Prop :=
  match l with
  | [] => True
  | a :: l' =>
      (node_step a = true ∨ Forall (λ b, rel_step b = true) l') ∧ phased l'
  end.

(** The value a property gets from a CSV field. *)
Definition coerce (c : coercion) (v : option string) : option value :=
  match c with
  | AsString => VStr <$> v
  | AsInteger => VInt <$> (v ≫= toInteger)
  | AsFloat => VFloat <$> (v ≫= toFloat)
  end.

(** The properties the table [node_sources] gives a row. *)
Definition row_props (ns : node_source) (r : row)
  : list (string * option value) :=
  (λ pcc, (pcc.1.1, coerce pcc.2 (default None (r !! pcc.1.2))))
    <$> ns_props ns.

(** Node [n] is what the statement of action [a] creates when it matches
    nothing. *)
Definition creates_node (a : action) (n : node) : Prop :=
  match statement a with
  | Some (MergeNode pat, ps) =>
      ∃ kvs, eval_props ps (pat_props pat) = Ok kvs ∧
        first_null kvs = None ∧ n = Node [pat_label pat] (props_of kvs)
  | _ => False
  end.

(** Nodes are only appended, each by an action of the list. *)
Definition nodes_from (l : list action) (s s' : store) : Prop :=
  nodes s `prefix_of` nodes s' ∧
  ∀ j n, nodes s' !! j = Some n → length (nodes s) ≤ j →
    ∃ a, a ∈ l ∧ creates_node a n.

(** The type and the ordered pair of nodes a relationship joins. *)
Definition rel_key (r : rel) : string * nat * nat := (rtype r, src r, dst r).

(** No two relationships of one type join the same ordered pair. *)
Definition no_parallel_rels (s : store) : Prop := NoDup (rel_key <$> rels s).

(** The store keeps its constraints: under every constraint in force, no
    two nodes of the label have equal ids. *)
Definition keys_unique (s : store) : Prop :=
  ∀ l, constrained s l = true → has_dup (ids_of s l) = false.

End Notions.

(** * Properties *)

(** Inversion of [kwargs r = Ok ps]: every column read is present, and
    [ps] is the dict built from them. *)
Ltac kwargs_inv Hk :=
  unfold at_kwargs, writes_kwargs, treats_kwargs, covered_by_kwargs,
    has_kwargs, employs_kwargs, hospital_kwargs, payer_kwargs,
    physician_kwargs, patient_kwargs, visit_kwargs, review_kwargs,
    row_get in Hk;
  repeat match type of Hk with
         | context [?r !! ?k] =>
             let E := fresh "E" in
             destruct (r !! k) eqn:E; cbn [mbind outcome_bind] in Hk;
             [|discriminate Hk]
         end;
  injection Hk as <-.


Section FlatView.
Context `{Scalars}.

(** ** The loader performs its program *)

Lemma bind_unfold {A B} (m : M A) (f : A → M B) (w : world) :
  (m ≫= f) w =
  match m w with
  | (Ok a, w') => f a w'
  | (Raise e, w') => (Raise e, w')
  end.
Proof. reflexivity. Qed.

Lemma forget_pending_None w : pending w = None → forget w = w.
Proof. destruct w; simpl; by intros ->. Qed.

Lemma act_opened a w :
  act a (opened w) = let (r, w') := act a w in (r, opened w').
Proof.
  destruct a as [e|q ps|q ps|]; simpl; try done.
  - unfold session_run. simpl. destruct (pending w); [done|].
    destruct (faults w) as [|[] fl]; try done;
      (destruct (exec q ps (db w)) as [s'|e]; [done|]);
      by destruct (on_pull w q e).
  - unfold tx_run. simpl.
    destruct (faults w) as [|[] fl]; try done;
      by destruct (exec q ps (db w)).
Qed.

Lemma perform_opened l w :
  perform l (opened w) = let (r, w') := perform l w in (r, opened w').
Proof.
  revert w. induction l as [|a l IH]; intros w; [done|].
  cbn [perform]. rewrite act_opened.
  destruct (act a w) as [[[]|e] w1]; [apply IH | done].
Qed.

Lemma perform_app l1 l2 w :
  perform (l1 ++ l2) w =
  match perform l1 w with
  | (Ok _, w1) => perform l2 w1
  | (Raise e, w1) => (Raise e, w1)
  end.
Proof.
  revert w. induction l1 as [|a l1 IH]; intros w; [done|].
  cbn [perform app]. destruct (act a w) as [[[]|e] w1]; [apply IH | done].
Qed.

(** After an exception nothing is pending. *)
Lemma perform_raised l w e w' : perform l w = (Raise e, w') → pending w' = None.
Proof.
  revert w. induction l as [|a l IH]; intros w; [done|].
  cbn [perform]. destruct (act a w) as [[[]|e1] w1]; [apply IH|].
  by intros [= _ <-].
Qed.

Lemma perform_sealed l w : pending (perform (l ++ [ASession]) w).2 = None.
Proof.
  rewrite perform_app. destruct (perform l w) as [[[]|e] w1] eqn:E; [done|].
  by eapply perform_raised.
Qed.

Lemma file_actions_sealed file q kwargs w :
  pending (perform (file_actions file q kwargs) w).2 = None.
Proof.
  destruct file as [rows|]; [|done]. cbn [file_actions perform act].
  apply perform_sealed.
Qed.

Lemma with_session_perform l w :
  with_session (perform l) w = perform (ASession :: l ++ [ASession]) w.
Proof.
  unfold with_session. cbn [perform act].
  change (session_enter w) with (opened (forget w)).
  rewrite perform_opened, perform_app.
  destruct (perform l (forget w)) as [[[]|e] w1] eqn:E; [done|].
  apply perform_raised in E. f_equal. destruct w1; simpl in *. by subst.
Qed.

(** A body and a list of actions that do the same, except that the list
    also forgets what is pending when it raises: inside a session they do
    the same. *)
Lemma with_session_ext (m : M unit) l w :
  (∀ w0, perform l w0 =
         match m w0 with
         | (Ok _, w') => (Ok tt, w')
         | (Raise e, w') => (Raise e, forget w')
         end) →
  with_session m w = perform (ASession :: l ++ [ASession]) w.
Proof.
  intros Hm. rewrite <- with_session_perform. unfold with_session.
  rewrite Hm. by destruct (m (session_enter w)) as [[[]|e] w1].
Qed.

Lemma for_each_run_row q kwargs rows w :
  perform (map (row_action q kwargs) rows) w =
  match for_each rows (run_row q kwargs) w with
  | (Ok _, w') => (Ok tt, w')
  | (Raise e, w') => (Raise e, forget w')
  end.
Proof.
  revert w. induction rows as [|r rows IH]; intros w; [done|].
  cbn [for_each map perform]. rewrite bind_unfold.
  unfold run_row, row_action. rewrite bind_unfold. unfold lift.
  destruct (kwargs r) as [ps|e]; cbn [act]; [|done].
  destruct (session_run q ps w) as [[[]|e] w1]; [apply IH | done].
Qed.

Lemma for_each_constraints ls w :
  perform (map (λ node, ATx (CreateConstraint node) ∅) ls) w =
  match for_each ls (λ node, execute_write _set_uniqueness_constraints node) w with
  | (Ok _, w') => (Ok tt, w')
  | (Raise e, w') => (Raise e, forget w')
  end.
Proof.
  revert w. induction ls as [|node ls IH]; intros w; [done|].
  cbn [for_each map perform act]. rewrite bind_unfold.
  unfold execute_write, _set_uniqueness_constraints.
  destruct (tx_run (CreateConstraint node) ∅ w) as [[[]|e] w1]; [apply IH | done].
Qed.

Lemma constraints_perform w :
  with_session
    (for_each NODES (λ node, execute_write _set_uniqueness_constraints node)) w
  = perform constraint_actions w.
Proof. apply with_session_ext, for_each_constraints. Qed.

Lemma load_file_perform file q kwargs w :
  pending w = None →
  load_file file q kwargs w = perform (file_actions file q kwargs) w.
Proof.
  intros Hp. destruct file as [rows|]; simpl.
  - apply with_session_ext, for_each_run_row.
  - unfold lift. by rewrite forget_pending_None.
Qed.

Lemma bind_ext {A B} (m m' : M A) (f f' : A → M B) w :
  (∀ w, m w = m' w) → (∀ a w, f a w = f' a w) →
  (m ≫= f) w = (m' ≫= f') w.
Proof.
  intros Hm Hf. rewrite !bind_unfold, Hm.
  destruct (m' w) as [[a|e] w']; [apply Hf | done].
Qed.

(** Sequencing, when what comes first leaves nothing pending. *)
Lemma bind_perform {B} (m : M unit) l (k k' : M B) w :
  m w = perform l w → pending (perform l w).2 = None →
  (∀ w1, pending w1 = None → k w1 = k' w1) →
  (m;; k) w = (perform l;; k') w.
Proof.
  intros Hm Hp Hk. rewrite !bind_unfold, Hm.
  destruct (perform l w) as [[[]|e] w1]; [by apply Hk | done].
Qed.

Lemma perform_app_then {B} l1 l2 (k : M B) w :
  (perform l1;; perform l2;; k) w = (perform (l1 ++ l2);; k) w.
Proof.
  rewrite !bind_unfold, perform_app.
  destruct (perform l1 w) as [[[]|e] w']; [|done].
  by rewrite bind_unfold.
Qed.

Lemma constraint_actions_sealed w :
  pending (perform constraint_actions w).2 = None.
Proof.
  unfold constraint_actions. cbn [perform act]. apply perform_sealed.
Qed.

(** The body of an attempt between acquiring and closing the driver. *)
Lemma body_as_program inp (k : M unit) w :
  ((with_session
      (for_each NODES (λ node, execute_write _set_uniqueness_constraints node)));;
   load_file (HOSPITALS_CSV inp) merge_hospital hospital_kwargs;;
   load_file (PAYERS_CSV inp) merge_payer payer_kwargs;;
   load_file (PHYSICIANS_CSV inp) merge_physician physician_kwargs;;
   load_file (PATIENTS_CSV inp) merge_patient patient_kwargs;;
   load_file (VISITS_CSV inp) merge_visit visit_kwargs;;
   load_file (REVIEWS_CSV inp) merge_review review_kwargs;;
   load_file (VISITS_CSV inp) merge_at at_kwargs;;
   load_file (REVIEWS_CSV inp) merge_writes writes_kwargs;;
   load_file (VISITS_CSV inp) merge_treats treats_kwargs;;
   load_file (VISITS_CSV inp) merge_covered_by covered_by_kwargs;;
   load_file (VISITS_CSV inp) merge_has has_kwargs;;
   load_file (VISITS_CSV inp) merge_employs employs_kwargs;;
   k) w =
  (perform (program inp);; k) w.
Proof.
  unfold program, node_actions, rel_actions.
  cbn [flat_map node_loads rel_loads load_actions fst snd].
  rewrite !app_nil_r, <- !app_assoc.
  rewrite <- perform_app_then.
  apply bind_perform;
    [apply constraints_perform | apply constraint_actions_sealed |].
  clear w. intros w Hp.
  do 11 (rewrite <- perform_app_then;
         apply bind_perform;
           [by apply load_file_perform | apply file_actions_sealed |];
         clear w Hp; intros w Hp).
  apply bind_perform; [by apply load_file_perform | apply file_actions_sealed |].
  done.
Qed.

(** One attempt: acquire the driver, perform the program, close the
    driver if nothing was raised. *)
Lemma load_as_program inp w :
  load_hospital_graph_from_csv inp w =
  (GraphDatabase_driver;; perform (program inp);; driver_close) w.
Proof.
  unfold load_hospital_graph_from_csv.
  apply bind_ext; [done|]. clear w. intros _ w. apply body_as_program.
Qed.

Lemma load_unfold inp w :
  load_hospital_graph_from_csv inp w =
  if uri_supported w then
    match perform (program inp) (acquired w) with
    | (Ok _, w1) => (Ok tt, released w1)
    | (Raise e, w1) => (Raise e, w1)
    end
  else (Raise ConfigurationError, w).
Proof.
  rewrite load_as_program, bind_unfold. unfold GraphDatabase_driver.
  destruct (uri_supported w); [|done]. rewrite bind_unfold.
  by destruct (perform (program inp) (acquired w)) as [[[]|e] w1].
Qed.

End FlatView.

Section StoreFacts.
Context `{Scalars}.

(** ** How statements change the database *)

#[local] Instance extends_preorder : PreOrder extends.
Proof.
  split.
  - by intros s.
  - intros s1 s2 s3 (?&?&?) (?&?&?). repeat split; by etrans.
Qed.

Lemma elem_of_match_nodes s l kvs i :
  i ∈ match_nodes s l kvs ↔ node_at_matches s l kvs i = true.
Proof.
  unfold match_nodes. rewrite list_elem_of_In, filter_In, in_seq.
  split; [by intros [_ ?]|]. intros Hm. split; [|done].
  unfold node_at_matches in Hm.
  destruct (nodes s !! i) eqn:E; [|done].
  apply lookup_lt_Some in E. lia.
Qed.

Lemma match_nodes_nil s l kvs :
  match_nodes s l kvs = [] ↔ ∀ i, node_at_matches s l kvs i = false.
Proof.
  split.
  - intros E i. destruct (node_at_matches s l kvs i) eqn:Hm; [|done].
    apply elem_of_match_nodes in Hm. rewrite E in Hm. by apply elem_of_nil in Hm.
  - intros Hn. destruct (match_nodes s l kvs) as [|i m] eqn:E; [done|].
    assert (i ∈ match_nodes s l kvs) as Hi by (rewrite E; left).
    apply elem_of_match_nodes in Hi. by rewrite Hn in Hi.
Qed.

Lemma match_nodes_same_nodes s s' l kvs :
  nodes s' = nodes s → match_nodes s' l kvs = match_nodes s l kvs.
Proof.
  intros E. unfold match_nodes, node_at_matches. rewrite E. done.
Qed.

Lemma node_at_matches_extends s s' l kvs i :
  nodes s `prefix_of` nodes s' →
  node_at_matches s l kvs i = true → node_at_matches s' l kvs i = true.
Proof.
  intros Hp. unfold node_at_matches.
  destruct (nodes s !! i) as [n|] eqn:E; [|done].
  by rewrite (prefix_lookup_Some _ _ _ _ E Hp).
Qed.

(** *** Relationship merges *)

Lemma merge_rel_nodes ty ps s xy : nodes (merge_rel ty ps s xy) = nodes s.
Proof. unfold merge_rel. by destruct (has_rel s ty xy.1 xy.2). Qed.

Lemma merge_rel_constraints ty ps s xy :
  constraints (merge_rel ty ps s xy) = constraints s.
Proof. unfold merge_rel. by destruct (has_rel s ty xy.1 xy.2). Qed.

Lemma merge_rel_rels ty ps s xy :
  rels (merge_rel ty ps s xy) =
  rels s ++ (if has_rel s ty xy.1 xy.2 then [] else [Rel ty xy.1 xy.2 ps]).
Proof.
  unfold merge_rel. destruct (has_rel s ty xy.1 xy.2); simpl; [|done].
  by rewrite app_nil_r.
Qed.

Lemma rel_is_true ty x y r :
  rel_is ty x y r = true ↔ rtype r = ty ∧ src r = x ∧ dst r = y.
Proof.
  unfold rel_is. rewrite !andb_true_iff, String.eqb_eq, !Nat.eqb_eq. tauto.
Qed.

Lemma has_rel_true s ty x y :
  has_rel s ty x y = true ↔
  ∃ r, r ∈ rels s ∧ rtype r = ty ∧ src r = x ∧ dst r = y.
Proof.
  unfold has_rel. rewrite existsb_exists.
  split; intros (r & Hr & Hrel); exists r.
  - by rewrite list_elem_of_In, <- rel_is_true.
  - by rewrite <- list_elem_of_In, rel_is_true.
Qed.

Lemma has_rel_app s ty x y l :
  existsb (rel_is ty x y) (rels s ++ l) =
  has_rel s ty x y || existsb (rel_is ty x y) l.
Proof. unfold has_rel. apply existsb_app. Qed.

Lemma has_rel_merge_rel ty ps s xy ty' x y :
  has_rel (merge_rel ty ps s xy) ty' x y =
  has_rel s ty' x y ||
  (String.eqb ty ty' && Nat.eqb xy.1 x && Nat.eqb xy.2 y).
Proof.
  unfold has_rel at 1. rewrite merge_rel_rels, has_rel_app.
  destruct (has_rel s ty xy.1 xy.2) eqn:E; simpl.
  - destruct (String.eqb ty ty' && Nat.eqb xy.1 x && Nat.eqb xy.2 y) eqn:E';
      [|by rewrite !orb_false_r].
    apply andb_true_iff in E' as [E' E3]. apply andb_true_iff in E' as [E1 E2].
    apply String.eqb_eq in E1. apply Nat.eqb_eq in E2, E3. subst.
    by rewrite E.
  - unfold rel_is. simpl. by rewrite orb_false_r.
Qed.

Lemma merge_rels_nodes ty ps pairs s : nodes (merge_rels ty ps pairs s) = nodes s.
Proof.
  revert s. induction pairs as [|xy pairs IH]; intros s; [done|].
  unfold merge_rels in *. simpl. by rewrite IH, merge_rel_nodes.
Qed.

Lemma merge_rels_constraints ty ps pairs s :
  constraints (merge_rels ty ps pairs s) = constraints s.
Proof.
  revert s. induction pairs as [|xy pairs IH]; intros s; [done|].
  unfold merge_rels in *. simpl. by rewrite IH, merge_rel_constraints.
Qed.

Lemma merge_rels_prefix ty ps pairs s :
  rels s `prefix_of` rels (merge_rels ty ps pairs s).
Proof.
  revert s. induction pairs as [|xy pairs IH]; intros s; [done|].
  unfold merge_rels in *. simpl. etrans; [|apply IH].
  rewrite merge_rel_rels. by apply prefix_app_r.
Qed.

Lemma has_rel_merge_rels ty ps pairs s ty' x y :
  has_rel (merge_rels ty ps pairs s) ty' x y =
  has_rel s ty' x y ||
  (String.eqb ty ty' && existsb (λ xy, Nat.eqb xy.1 x && Nat.eqb xy.2 y) pairs).
Proof.
  revert s. induction pairs as [|xy pairs IH]; intros s.
  - simpl. by rewrite andb_false_r, orb_false_r.
  - unfold merge_rels in *. simpl. rewrite IH, has_rel_merge_rel.
    destruct (has_rel s ty' x y), (String.eqb ty ty'),
      (Nat.eqb xy.1 x), (Nat.eqb xy.2 y); done.
Qed.

(** No pair that already has a [ty]-relationship gets another one. *)
Lemma merge_rels_new ty ps pairs s :
  ∃ new, rels (merge_rels ty ps pairs s) = rels s ++ new ∧
    NoDup ((λ r, (src r, dst r)) <$> new) ∧
    ∀ r, r ∈ new →
      rtype r = ty ∧ rprops r = ps ∧ (src r, dst r) ∈ pairs ∧
      has_rel s ty (src r) (dst r) = false.
Proof.
  revert s. induction pairs as [|xy pairs IH]; intros s.
  - exists []. simpl. rewrite app_nil_r. split; [done|]. split; [constructor|].
    intros r Hr. by apply elem_of_nil in Hr.
  - unfold merge_rels in *. simpl.
    destruct (IH (merge_rel ty ps s xy)) as (new & E & Hnd & Hnew).
    rewrite E, merge_rel_rels.
    destruct (has_rel s ty xy.1 xy.2) eqn:Ex.
    + exists new. rewrite app_nil_r. split; [done|]. split; [done|].
      intros r Hr. destruct (Hnew r Hr) as (?&?&?&Hh).
      repeat split; try done; [by right|].
      rewrite has_rel_merge_rel in Hh. by apply orb_false_iff in Hh as [? _].
    + exists (Rel ty xy.1 xy.2 ps :: new). rewrite <- app_assoc.
      split; [done|]. split.
      * simpl. constructor; [|done].
        intros Hin. apply list_elem_of_fmap in Hin as (r & Er & Hr).
        destruct (Hnew r Hr) as (Ht&_&_&Hh).
        rewrite has_rel_merge_rel in Hh. apply orb_false_iff in Hh as [_ Hh].
        inversion Er as [[E1 E2]].
        by rewrite String.eqb_refl, E1, E2, !Nat.eqb_refl in Hh.
      * intros r Hr. apply elem_of_cons in Hr as [->|Hr]; simpl.
        { repeat split; try done. destruct xy; left. }
        destruct (Hnew r Hr) as (?&?&?&Hh).
        repeat split; try done; [by right|].
        rewrite has_rel_merge_rel in Hh. by apply orb_false_iff in Hh as [? _].
Qed.

End StoreFacts.

Section ExecFacts.
Context `{Scalars}.

#[local] Existing Instance extends_preorder.

Lemma outcome_bind_Ok {A B} (m : outcome A) (f : A → outcome B) b :
  m ≫= f = Ok b → ∃ a, m = Ok a ∧ f a = Ok b.
Proof. destruct m as [a|e]; [by exists a | done]. Qed.

Lemma constrained_app s l l' :
  existsb (String.eqb l) (constraints s ++ l') =
  constrained s l || existsb (String.eqb l) l'.
Proof. apply existsb_app. Qed.

Lemma existsb_prefix {A} (f : A → bool) (l l' : list A) :
  l `prefix_of` l' → existsb f l = true → existsb f l' = true.
Proof. intros [k ->] E. by rewrite existsb_app, E. Qed.

Lemma constrained_extends s s' l :
  extends s s' → constrained s l = true → constrained s' l = true.
Proof. intros (_&_&Hc). by apply existsb_prefix. Qed.

Lemma has_rel_extends s s' ty x y :
  extends s s' → has_rel s ty x y = true → has_rel s' ty x y = true.
Proof. intros (_&Hr&_). by apply existsb_prefix. Qed.

Lemma exec_extends q ps s s' : exec q ps s = Ok s' → extends s s'.
Proof.
  destruct q as [l|pat|a b ty oc]; simpl.
  - destruct (constrained s l); [by intros [= <-]|].
    destruct (has_dup (ids_of s l)); [done|]. intros [= <-].
    repeat split; simpl; try done. by apply prefix_app_r.
  - intros E. apply outcome_bind_Ok in E as (kvs & _ & E).
    destruct (first_null kvs); [done|].
    destruct (match_nodes s (pat_label pat) kvs); [|by injection E as <-].
    destruct (unique_conflict s (pat_label pat) kvs); [done|].
    injection E as <-. repeat split; simpl; try done. by apply prefix_app_r.
  - intros E. apply outcome_bind_Ok in E as (avs & _ & E).
    apply outcome_bind_Ok in E as (bvs & _ & E).
    apply outcome_bind_Ok in E as (cvs & _ & E).
    injection E as <-. repeat split.
    + by rewrite merge_rels_nodes.
    + apply merge_rels_prefix.
    + by rewrite merge_rels_constraints.
Qed.

Lemma exec_rel_nodes q ps s s' :
  is_rel_query q = true → exec q ps s = Ok s' →
  nodes s' = nodes s ∧ constraints s' = constraints s.
Proof.
  destruct q as [l|pat|a b ty oc]; try done. intros _ E. simpl in E.
  apply outcome_bind_Ok in E as (avs & _ & E).
  apply outcome_bind_Ok in E as (bvs & _ & E).
  apply outcome_bind_Ok in E as (cvs & _ & E).
  injection E as <-. by rewrite merge_rels_nodes, merge_rels_constraints.
Qed.

Lemma exec_node_step_rels q ps s s' :
  is_rel_query q = false → exec q ps s = Ok s' → rels s' = rels s.
Proof.
  destruct q as [l|pat|a b ty oc]; try done; intros _ E; simpl in E.
  - destruct (constrained s l); [by injection E as <-|].
    destruct (has_dup (ids_of s l)); [done|]. by injection E as <-.
  - apply outcome_bind_Ok in E as (kvs & _ & E).
    destruct (first_null kvs); [done|].
    destruct (match_nodes s (pat_label pat) kvs); [|by injection E as <-].
    destruct (unique_conflict s (pat_label pat) kvs); [done|].
    by injection E as <-.
Qed.

(** *** Running lists of actions *)

(** A property of the database that every successful statement of the
    list keeps is kept by running the list. *)
Lemma run_actions_invariant (I : store → Prop) late l pend s :
  (∀ a q ps s s', a ∈ l → statement a = Some (q, ps) →
     I s → exec q ps s = Ok s' → I s') →
  I s → I (run_actions late l pend s).2.
Proof.
  revert pend s. induction l as [|a l IH]; intros pend s Hexec Hs; [done|].
  assert (∀ pend' s', I s' → I (run_actions late l pend' s').2) as Hnext.
  { intros pend' s' Hs'. apply IH; [|done].
    intros a' q ps s1 s2 Ha'. apply Hexec. by right. }
  assert (∀ q ps s', statement a = Some (q, ps) → exec q ps s = Ok s' → I s')
    as Hstep.
  { intros q ps s' Ha E. eapply (Hexec a); [left | done..]. }
  destruct a as [e|q ps|q ps|]; cbn [run_actions]; try done.
  - destruct pend; [done|].
    destruct (exec q ps s) as [s'|e] eqn:E; [by eapply Hnext, Hstep|].
    destruct (late q e); [by apply Hnext | done].
  - destruct (exec q ps s) as [s'|e] eqn:E; [by eapply Hnext, Hstep | done].
  - by apply Hnext.
Qed.

Lemma run_actions_extends late l pend s :
  extends s (run_actions late l pend s).2.
Proof.
  apply (run_actions_invariant (extends s)); [|done].
  intros a q ps s1 s2 _ _ H1 E. etrans; [done|]. by eapply exec_extends.
Qed.

Lemma run_actions_rel_step late l pend s :
  Forall (λ a, rel_step a = true) l →
  nodes (run_actions late l pend s).2 = nodes s ∧
  constraints (run_actions late l pend s).2 = constraints s.
Proof.
  intros Hl.
  apply (run_actions_invariant
           (λ s', nodes s' = nodes s ∧ constraints s' = constraints s));
    [|done].
  intros a q ps s1 s2 Ha Hst [<- <-] E. rewrite Forall_forall in Hl.
  specialize (Hl a Ha). unfold rel_step in Hl. rewrite Hst in Hl.
  by eapply exec_rel_nodes.
Qed.

Lemma run_actions_node_step late l pend s :
  Forall (λ a, node_step a = true) l → rels (run_actions late l pend s).2 = rels s.
Proof.
  intros Hl.
  apply (run_actions_invariant (λ s', rels s' = rels s)); [|done].
  intros a q ps s1 s2 Ha Hst <- E. rewrite Forall_forall in Hl.
  specialize (Hl a Ha). unfold node_step in Hl. rewrite Hst in Hl.
  apply negb_true_iff in Hl. by eapply exec_node_step_rels.
Qed.

(** What is pending does not matter where a session starts. *)
Lemma run_actions_session late l pend s :
  run_actions late (ASession :: l) pend s = run_actions late l None s.
Proof. reflexivity. Qed.

(** Running on after a session was closed. *)
Lemma run_actions_app late l1 l2 pend s :
  run_actions late ((l1 ++ [ASession]) ++ l2) pend s =
  match run_actions late (l1 ++ [ASession]) pend s with
  | (Ok _, s1) => run_actions late l2 None s1
  | (Raise e, s1) => (Raise e, s1)
  end.
Proof.
  revert pend s. induction l1 as [|a l1 IH]; intros pend s; [done|].
  destruct a as [e|q ps|q ps|]; cbn [run_actions app]; try done.
  - destruct pend; [done|].
    destruct (exec q ps s) as [s'|e]; [apply IH|].
    destruct (late q e); [apply IH | done].
  - destruct (exec q ps s) as [s'|e]; [apply IH | done].
Qed.

Lemma extends_antisym s s' : extends s s' → extends s' s → s = s'.
Proof.
  intros (Hn & Hr & Hc) (Hn' & Hr' & Hc').
  destruct s, s'; simpl in *. f_equal; by apply (anti_symm prefix).
Qed.

End ExecFacts.

Section Quiet.
Context `{Scalars}.

#[local] Existing Instance extends_preorder.

(** ** Quiet actions *)

Lemma eval_props_assoc ps kes kvs k e :
  eval_props ps kes = Ok kvs → assoc k kes = Some e →
  ∃ v, eval ps e = Ok v ∧ assoc k kvs = Some v.
Proof.
  revert kvs. induction kes as [|[k' e'] kes IH]; intros kvs E Ha; [done|].
  simpl in E. apply outcome_bind_Ok in E as (v & Ev & E).
  apply outcome_bind_Ok in E as (vs & Evs & E). injection E as <-.
  simpl in *. destruct (String.eqb k' k); [|by apply IH].
  injection Ha as <-. by exists v.
Qed.

Lemma props_of_lookup kvs k v :
  assoc k kvs = Some (Some v) → props_of kvs !! k = Some v.
Proof.
  induction kvs as [|[k' [v'|]] kvs IH]; simpl; [done| |].
  - destruct (String.eqb k' k) eqn:E.
    + apply String.eqb_eq in E as ->. intros [= ->]. apply lookup_insert_eq.
    + apply String.eqb_neq in E. intros Ha. rewrite lookup_insert_ne; auto.
  - destruct (String.eqb k' k); [done | auto].
Qed.

Lemma first_null_assoc kvs k v :
  first_null kvs = None → assoc k kvs = Some v → is_Some v.
Proof.
  induction kvs as [|[k' [v'|]] kvs IH]; simpl; try done.
  destruct (String.eqb k' k); [by intros _ [= <-] | auto].
Qed.

Lemma has_label_singleton l ps : has_label (Node [l] ps) l = true.
Proof. unfold has_label. simpl. by rewrite String.eqb_refl. Qed.

Lemma merge_rels_id ty ps pairs s :
  (∀ xy, xy ∈ pairs → has_rel s ty xy.1 xy.2 = true) →
  merge_rels ty ps pairs s = s.
Proof.
  induction pairs as [|xy pairs IH]; intros Hall; [done|].
  unfold merge_rels in *. simpl. unfold merge_rel at 2.
  rewrite (Hall xy) by left. apply IH. intros xy' Hin. apply Hall. by right.
Qed.

Lemma merge_rels_fix ty ps pairs s xy :
  merge_rels ty ps pairs s = s → xy ∈ pairs → has_rel s ty xy.1 xy.2 = true.
Proof.
  intros E Hin.
  pose proof (has_rel_merge_rels ty ps pairs s ty xy.1 xy.2) as Hh.
  rewrite E, String.eqb_refl in Hh. simpl in Hh.
  destruct (has_rel s ty xy.1 xy.2); [done|]. simpl in Hh. symmetry in Hh.
  apply not_true_iff_false in Hh. destruct Hh.
  apply existsb_exists. exists xy. rewrite <- list_elem_of_In.
  by rewrite !Nat.eqb_refl.
Qed.

Lemma merge_rels_pairs_done ty ps pairs s xy :
  xy ∈ pairs → has_rel (merge_rels ty ps pairs s) ty xy.1 xy.2 = true.
Proof.
  intros Hin. rewrite has_rel_merge_rels, String.eqb_refl. simpl.
  apply orb_true_iff. right. apply existsb_exists. exists xy.
  rewrite <- list_elem_of_In. by rewrite !Nat.eqb_refl.
Qed.

Lemma has_dup_app l l' : has_dup l = true → has_dup (l ++ l') = true.
Proof.
  induction l as [|x l IH]; simpl; [done|].
  rewrite !orb_true_iff, existsb_app, orb_true_iff. intros [?|?]; auto.
Qed.

Lemma ids_of_extends s s' l :
  extends s s' → ids_of s l `prefix_of` ids_of s' l.
Proof.
  intros ([k E]&_&_). unfold ids_of. rewrite E, omap_app. by apply prefix_app_r.
Qed.

Lemma unique_conflict_extends s s' l kvs :
  extends s s' → unique_conflict s l kvs = true → unique_conflict s' l kvs = true.
Proof.
  intros Hext. unfold unique_conflict. rewrite !andb_true_iff.
  intros [Hc Hx]. split; [by eapply constrained_extends|].
  destruct (assoc "id"%string kvs) as [[v|]|]; try done.
  destruct Hext as (Hn&_&_). by eapply existsb_prefix.
Qed.

Lemma match_nodes_extends s s' l kvs :
  extends s s' → match_nodes s l kvs ≠ [] → match_nodes s' l kvs ≠ [].
Proof.
  intros (Hn&_&_) Hne E. apply Hne, match_nodes_nil. intros i.
  destruct (node_at_matches s l kvs i) eqn:Hm; [|done].
  apply (node_at_matches_extends _ _ _ _ _ Hn) in Hm.
  by rewrite (proj1 (match_nodes_nil _ _ _) E) in Hm.
Qed.

Lemma store_nodes_grow s n rs cs : Store (nodes s ++ [n]) rs cs ≠ s.
Proof.
  intros E. apply (f_equal (λ s, length (nodes s))) in E. simpl in E.
  rewrite length_app in E. simpl in E. lia.
Qed.

Lemma store_constraints_grow s ns rs c : Store ns rs (constraints s ++ [c]) ≠ s.
Proof.
  intros E. apply (f_equal (λ s, length (constraints s))) in E. simpl in E.
  rewrite length_app in E. simpl in E. lia.
Qed.

Lemma match_nodes_merge_rels ty ps pairs s l kvs :
  match_nodes (merge_rels ty ps pairs s) l kvs = match_nodes s l kvs.
Proof. apply match_nodes_same_nodes, merge_rels_nodes. Qed.

Lemma node_matches_id l kvs n v :
  assoc "id"%string kvs = Some (Some v) →
  node_matches l kvs n = true → id_is v l n = true.
Proof.
  unfold node_matches, id_is. rewrite !andb_true_iff.
  intros Ha [Hl Hall]. split; [done|]. clear Hl.
  induction kvs as [|[k' v'] kvs IH]; [done|]. simpl in *.
  apply andb_true_iff in Hall as [Hp Hall].
  destruct (String.eqb k' "id") eqn:Ek; [|auto].
  apply String.eqb_eq in Ek as ->. injection Ha as ->.
  unfold prop_matches in Hp. simpl in Hp.
  by destruct (props n !! "id"%string).
Qed.

(** The [id] a keyed merge gives its node is an integer. *)
Lemma keyed_id pat ps kvs p :
  assoc "id"%string (pat_props pat) = Some (EToInteger p) →
  eval_props ps (pat_props pat) = Ok kvs → first_null kvs = None →
  ∃ z, assoc "id"%string kvs = Some (Some (VInt z)).
Proof.
  intros Hid Ek Hn.
  destruct (eval_props_assoc _ _ _ _ _ Ek Hid) as (v & Ev & Ha).
  destruct (first_null_assoc _ _ _ Hn Ha) as [x ->].
  simpl in Ev. destruct (ps !! p) as [[str|]|]; try done.
  simpl in Ev. destruct (toInteger str) as [z|]; [|done].
  injection Ev as <-. by exists z.
Qed.

(** Right after a statement succeeded it is quiet. *)
Lemma exec_again q ps s s' :
  exec q ps s = Ok s' →
  (∀ pat, q = MergeNode pat →
     constrained s (pat_label pat) = true ∧
     ∃ p, assoc "id"%string (pat_props pat) = Some (EToInteger p)) →
  match exec q ps s' with
  | Ok s'' => s'' = s'
  | Raise _ => True
  end.
Proof.
  destruct q as [l|pat|a b ty oc]; simpl.
  - intros E _. destruct (constrained s l) eqn:Hc.
    + injection E as <-. by rewrite Hc.
    + destruct (has_dup (ids_of s l)); [done|]. injection E as <-.
      unfold constrained at 1. simpl.
      by rewrite constrained_app, Hc; simpl; rewrite String.eqb_refl.
  - intros E Hk. destruct (Hk pat eq_refl) as (Hc & p & Hid).
    destruct (eval_props ps (pat_props pat)) as [kvs|e] eqn:Ek; [|done].
    simpl in *. destruct (first_null kvs) eqn:Hn; [done|].
    destruct (match_nodes s (pat_label pat) kvs) eqn:Hm.
    + destruct (unique_conflict s (pat_label pat) kvs) eqn:Hu; [done|].
      injection E as <-.
      match goal with |- context [match_nodes ?t _ _] => set (s' := t) end.
      destruct (match_nodes s' (pat_label pat) kvs); [|done].
      assert (unique_conflict s' (pat_label pat) kvs = true) as ->; [|done].
      destruct (keyed_id _ _ _ _ Hid Ek Hn) as [z Ha].
      unfold unique_conflict. rewrite Ha. apply andb_true_iff. split; [done|].
      subst s'. simpl. rewrite existsb_app. apply orb_true_iff. right. simpl.
      unfold id_is. rewrite has_label_singleton. simpl.
      rewrite (props_of_lookup _ _ _ Ha). simpl. by rewrite Z.eqb_refl.
    + injection E as <-. by rewrite Hm.
  - intros E _.
    destruct (eval_props ps (pat_props a)) as [avs|e] eqn:Ea; [|done].
    destruct (eval_props ps (pat_props b)) as [bvs|e] eqn:Eb; [|done].
    destruct (eval_props ps oc) as [cvs|e] eqn:Ec; [|done].
    simpl in *. injection E as <-.
    rewrite !match_nodes_merge_rels.
    apply merge_rels_id. intros xy Hin. by apply merge_rels_pairs_done.
Qed.

Lemma keyed_merge s a pat ps :
  statement a = Some (MergeNode pat, ps) → keyed s a →
  constrained s (pat_label pat) = true ∧
  ∃ p, assoc "id"%string (pat_props pat) = Some (EToInteger p).
Proof. destruct a as [e|q0 ps0|q0 ps0|]; try done; by intros [= -> ->]. Qed.

Lemma quiet_after_exec a q ps s s' :
  statement a = Some (q, ps) → exec q ps s = Ok s' → keyed s a → quiet s' a.
Proof.
  intros Hst E Hk. unfold quiet. rewrite Hst. apply (exec_again _ _ _ _ E).
  intros pat ->. by eapply keyed_merge.
Qed.

Lemma quiet_mono_node_step a s s' :
  node_step a = true → quiet s a → extends s s' → quiet s' a.
Proof.
  unfold node_step, quiet. destruct (statement a) as [[q ps]|]; [|done].
  destruct q as [l|pat|a' b ty oc]; simpl; try done; intros _ Hq Hext.
  - destruct (constrained s l) eqn:Hc.
    { by rewrite (constrained_extends _ _ _ Hext Hc). }
    destruct (constrained s' l); [done|].
    destruct (has_dup (ids_of s l)) eqn:Hd.
    + destruct (ids_of_extends _ _ l Hext) as [k ->].
      by rewrite (has_dup_app _ _ Hd).
    + by apply store_constraints_grow in Hq.
  - destruct (eval_props ps (pat_props pat)) as [kvs|e]; [|done]. simpl in *.
    destruct (first_null kvs); [done|].
    destruct (match_nodes s (pat_label pat) kvs) eqn:Hm.
    + destruct (match_nodes s' (pat_label pat) kvs); [|done].
      destruct (unique_conflict s (pat_label pat) kvs) eqn:Hu.
      * by rewrite (unique_conflict_extends _ _ _ _ Hext Hu).
      * by apply store_nodes_grow in Hq.
    + destruct (match_nodes s' (pat_label pat) kvs) eqn:Hm'; [|done].
      exfalso. eapply (match_nodes_extends s s'); [done| |done]. by rewrite Hm.
Qed.

Lemma quiet_mono_same_nodes a s s' :
  quiet s a → extends s s' → nodes s' = nodes s → quiet s' a.
Proof.
  intros Hq Hext Hn. destruct (node_step a) eqn:Hs.
  { by eapply quiet_mono_node_step. }
  unfold node_step, quiet in *. destruct (statement a) as [[q ps]|]; [|done].
  destruct q as [l|pat|a' b ty oc]; try done. simpl in *.
  destruct (eval_props ps (pat_props a')) as [avs|e]; [|done].
  destruct (eval_props ps (pat_props b)) as [bvs|e]; [|done].
  destruct (eval_props ps oc) as [cvs|e]; [|done].
  simpl in *. rewrite !(match_nodes_same_nodes s s') by done.
  apply merge_rels_id. intros xy Hin.
  eapply has_rel_extends; [done|]. by eapply merge_rels_fix.
Qed.

Lemma keyed_extends a s s' : keyed s a → extends s s' → keyed s' a.
Proof.
  destruct a as [e|[l|pat|a b ty oc] ps|[l|pat|a b ty oc] ps|]; simpl; try done;
    intros [Hc Hid] Hext; (split; [|done]); by eapply constrained_extends.
Qed.

(** *** Failures that stay *)

(** Under the constraint on its label, a merge that found its [id] taken
    by a node differing from it keeps finding it so, whatever keyed
    statements are executed. *)
Lemma conflict_kept q' ps' s s' l kvs z :
  assoc "id"%string kvs = Some (Some (VInt z)) →
  match_nodes s l kvs = [] → unique_conflict s l kvs = true →
  (∀ pat', q' = MergeNode pat' →
     ∃ p, assoc "id"%string (pat_props pat') = Some (EToInteger p)) →
  exec q' ps' s = Ok s' →
  match_nodes s' l kvs = [] ∧ unique_conflict s' l kvs = true.
Proof.
  intros Ha Hm Hu Hk E.
  split; [|by eapply unique_conflict_extends; [eapply exec_extends|]].
  destruct q' as [l'|pat'|a b ty oc].
  - simpl in E. destruct (constrained s l'); [by injection E as <-|].
    destruct (has_dup (ids_of s l')); [done|]. injection E as <-.
    by rewrite (match_nodes_same_nodes s).
  - destruct (Hk pat' eq_refl) as [p Hid]. simpl in E.
    destruct (eval_props ps' (pat_props pat')) as [kvs'|e] eqn:Ek; [|done].
    simpl in E. destruct (first_null kvs') eqn:Hn; [done|].
    destruct (match_nodes s (pat_label pat') kvs'); [|by injection E as <-].
    destruct (unique_conflict s (pat_label pat') kvs') eqn:Hu'; [done|].
    injection E as <-. apply match_nodes_nil. intros i.
    rewrite match_nodes_nil in Hm. specialize (Hm i).
    unfold node_at_matches in *. simpl.
    destruct (decide (i < length (nodes s))) as [Hlt|Hge].
    { by rewrite lookup_app_l. }
    rewrite lookup_app_r by lia.
    destruct (i - length (nodes s)) as [|j]; [|done]. simpl.
    destruct (node_matches l kvs (Node [pat_label pat'] (props_of kvs')))
      eqn:Hnm; [|done].
    exfalso. apply (node_matches_id _ _ _ _ Ha) in Hnm.
    unfold id_is in Hnm. apply andb_true_iff in Hnm as [Hl Hx].
    unfold has_label in Hl. simpl in Hl. rewrite orb_false_r in Hl.
    apply String.eqb_eq in Hl. subst l.
    destruct (keyed_id _ _ _ _ Hid Ek Hn) as [z' Ha'].
    simpl in Hx. rewrite (props_of_lookup _ _ _ Ha') in Hx. simpl in Hx.
    apply Z.eqb_eq in Hx as ->.
    unfold unique_conflict in Hu, Hu'. rewrite Ha in Hu. rewrite Ha' in Hu'.
    congruence.
  - destruct (exec_rel_nodes (MatchMergeRel a b ty oc) ps' s s' eq_refl E)
      as [En _].
    by rewrite (match_nodes_same_nodes s).
Qed.

Lemma failure_kept q ps q' ps' s s' e :
  exec q ps s = Raise e → keyed s (ARun q ps) →
  (∀ pat', q' = MergeNode pat' →
     ∃ p, assoc "id"%string (pat_props pat') = Some (EToInteger p)) →
  exec q' ps' s = Ok s' → exec q ps s' = Raise e.
Proof.
  intros E Hk Hk' E'. destruct q as [l|pat|a b ty oc]; [done| |].
  - destruct Hk as (Hc & p & Hid). simpl in E |- *.
    destruct (eval_props ps (pat_props pat)) as [kvs|e0] eqn:Ek; [|done].
    simpl in E |- *. destruct (first_null kvs) eqn:Hn; [done|].
    destruct (match_nodes s (pat_label pat) kvs) eqn:Hm; [|done].
    destruct (unique_conflict s (pat_label pat) kvs) eqn:Hu; [|done].
    destruct (keyed_id _ _ _ _ Hid Ek Hn) as [z Ha].
    destruct (conflict_kept _ _ _ _ _ _ _ Ha Hm Hu Hk' E') as [-> ->]. done.
  - simpl in E |- *.
    destruct (eval_props ps (pat_props a)) as [avs|e0]; [|done].
    destruct (eval_props ps (pat_props b)) as [bvs|e1]; [|done].
    by destruct (eval_props ps oc) as [cvs|e2].
Qed.

Lemma keyed_id_integer s a pat ps :
  statement a = Some (MergeNode pat, ps) → keyed s a →
  ∃ p, assoc "id"%string (pat_props pat) = Some (EToInteger p).
Proof. intros Hst Hk. by destruct (keyed_merge _ _ _ _ Hst Hk) as [_ ?]. Qed.

(** A statement that failed keeps failing, with the same error, through
    whatever the run does next. *)
Lemma run_keeps_failure late l pend q ps s e :
  exec q ps s = Raise e → keyed s (ARun q ps) → Forall (keyed s) l →
  exec q ps (run_actions late l pend s).2 = Raise e.
Proof.
  intros E Hk Hl.
  assert (extends s (run_actions late l pend s).2 ∧
          exec q ps (run_actions late l pend s).2 = Raise e) as [_ ?]; [|done].
  apply (run_actions_invariant (λ s', extends s s' ∧ exec q ps s' = Raise e));
    [|done].
  intros a q' ps' s1 s2 Ha Hst [Hext E1] E2.
  split; [etrans; [done|]; by eapply exec_extends|].
  rewrite Forall_forall in Hl.
  eapply failure_kept; [done | by eapply keyed_extends | | done].
  intros pat' ->. eapply keyed_id_integer; [done | by apply Hl].
Qed.

End Quiet.

Section Replay.
Context `{Scalars}.

#[local] Existing Instance extends_preorder.

(** ** Replaying a run on the database it produced *)

(** On a database where every action is quiet, running them changes
    nothing. *)
Lemma quiet_stays late l pend s :
  Forall (quiet s) l → (run_actions late l pend s).2 = s.
Proof.
  intros Hl. revert pend. induction Hl as [|a l Ha Hl IH]; intros pend; [done|].
  unfold quiet in Ha.
  destruct a as [e|q ps|q ps|]; cbn [run_actions statement] in *; try done.
  - destruct pend; [done|].
    destruct (exec q ps s) as [s'|e]; [subst; apply IH|].
    destruct (late q e); [apply IH | done].
  - destruct (exec q ps s) as [s'|e]; [subst; apply IH | done].
Qed.

(** What a statement that succeeded has done, it finds done at the end of
    the run. *)
Lemma quiet_at_end late a q ps l pend s s' :
  statement a = Some (q, ps) → exec q ps s = Ok s' → keyed s a →
  node_step a = true ∨ Forall (λ b, rel_step b = true) l →
  quiet (run_actions late l pend s').2 a.
Proof.
  intros Hst E Hk Hstep.
  pose proof (quiet_after_exec _ _ _ _ _ Hst E Hk) as Hq.
  pose proof (run_actions_extends late l pend s') as Hext.
  destruct Hstep as [Hs|Hs].
  - by eapply quiet_mono_node_step.
  - eapply quiet_mono_same_nodes; [done..|].
    by apply run_actions_rel_step.
Qed.

(** Running the actions again on the database they left changes nothing;
    and if the first run raised, so does the second.  The second run may
    start with a failure pending where the first had none. *)
Lemma run_actions_settled late l :
  ∀ s0 pend pend', (is_Some pend → is_Some pend') →
    phased l → Forall (keyed s0) l →
    let r := run_actions late l pend s0 in
    let r' := run_actions late l pend' r.2 in
    r'.2 = r.2 ∧ (∀ e, r.1 = Raise e → ∃ e', r'.1 = Raise e').
Proof.
  induction l as [|a l IH]; intros s0 pend pend' Hpend Hph Hk; cbv zeta.
  { by split. }
  destruct Hph as [Hstep Hph]. apply Forall_cons in Hk as [Hka Hk].
  assert (∀ s', extends s0 s' → Forall (keyed s') l) as Hk'.
  { intros s' Hext. eapply Forall_impl; [done|].
    intros b Hb. by eapply keyed_extends. }
  destruct a as [e|q ps|q ps|]; cbn [run_actions].
  - split; [done|]. intros e0 _. by eexists.
  - destruct pend as [e0|].
    { destruct Hpend as [e1 ->]; [done|]. cbn [run_actions fst snd].
      split; [done|]. intros e _. by eexists. }
    destruct (exec q ps s0) as [s'|e] eqn:E.
    + pose proof (quiet_at_end late (ARun q ps) q ps l None s0 s' eq_refl E Hka Hstep) as Hq.
      assert (extends s0 s') as Hext by by eapply exec_extends.
      set (r := run_actions late l None s') in *.
      destruct pend' as [e1|]; cbn [run_actions].
      { split; [done|]. intros e _. by eexists. }
      unfold quiet in Hq. cbn [statement] in Hq.
      destruct (exec q ps r.2) as [s''|e'] eqn:E'.
      * subst s''. apply (IH s' None None); auto.
      * destruct (late q e').
        -- apply (IH s' None (Some e')); auto.
        -- split; [done|]. intros e _. by eexists.
    + destruct (late q e) eqn:Hlate.
      * pose proof (run_keeps_failure late l (Some e) _ _ _ _ E Hka Hk) as E'.
        set (r := run_actions late l (Some e) s0) in *.
        destruct pend' as [e1|]; cbn [run_actions].
        { split; [done|]. intros e0 _. by eexists. }
        rewrite E', Hlate. apply (IH s0 (Some e) (Some e)); auto.
      * cbn [fst snd]. destruct pend' as [e1|]; cbn [run_actions].
        { split; [done|]. intros e0 _. by eexists. }
        rewrite E, Hlate. split; [done|]. intros e0 _. by eexists.
  - destruct (exec q ps s0) as [s'|e] eqn:E.
    + pose proof (quiet_at_end late (ATx q ps) q ps l pend s0 s' eq_refl E Hka Hstep) as Hq.
      assert (extends s0 s') as Hext by by eapply exec_extends.
      set (r := run_actions late l pend s') in *.
      unfold quiet in Hq. cbn [statement] in Hq.
      destruct (exec q ps r.2) as [s''|e'] eqn:E'.
      * subst s''. apply (IH s' pend pend'); auto.
      * split; [done|]. intros e _. by eexists.
    + cbn [fst snd]. rewrite E. split; [done|]. intros e0 _. by eexists.
  - apply (IH s0 None None); auto.
Qed.

(** After a run that raised nothing every action is quiet. *)
Lemma run_actions_Ok_quiet late l :
  ∀ s0 pend s1, run_actions late l pend s0 = (Ok tt, s1) →
    phased l → Forall (keyed s0) l → Forall (quiet s1) l.
Proof.
  induction l as [|a l IH]; intros s0 pend s1 E Hph Hk; [constructor|].
  destruct Hph as [Hstep Hph]. apply Forall_cons in Hk as [Hka Hk].
  assert (∀ s', extends s0 s' → Forall (keyed s') l) as Hk'.
  { intros s' Hext. eapply Forall_impl; [done|].
    intros b Hb. by eapply keyed_extends. }
  destruct a as [e|q ps|q ps|]; cbn [run_actions] in E; [done| | |].
  - destruct pend; [done|].
    destruct (exec q ps s0) as [s'|e] eqn:E0.
    + constructor.
      * pose proof (quiet_at_end late (ARun q ps) q ps l None s0 s' eq_refl E0 Hka Hstep) as Hq.
        by rewrite E in Hq.
      * eapply IH; [done..|]. by eapply Hk', exec_extends.
    + destruct (late q e); [|done]. constructor; [|by eapply IH].
      pose proof (run_keeps_failure late l (Some e) _ _ _ _ E0 Hka Hk) as E'.
      rewrite E in E'. unfold quiet. cbn [statement fst snd] in *.
      by rewrite E'.
  - destruct (exec q ps s0) as [s'|e] eqn:E0; [|done]. constructor.
    + pose proof (quiet_at_end late (ATx q ps) q ps l pend s0 s' eq_refl E0 Hka Hstep) as Hq.
      by rewrite E in Hq.
    + eapply IH; [done..|]. by eapply Hk', exec_extends.
  - constructor; [done|]. by eapply IH.
Qed.

Lemma run_actions_Ok_no_raise late l pend s s' e :
  run_actions late l pend s = (Ok tt, s') → ARaise e ∉ l.
Proof.
  revert pend s. induction l as [|a l IH]; intros pend s E Hin.
  { by apply elem_of_nil in Hin. }
  apply elem_of_cons in Hin as [<-|Hin]; [done|].
  destruct a as [e'|q ps|q ps|]; cbn [run_actions] in E; [done| | |].
  - destruct pend; [done|]. destruct (exec q ps s) as [s1|e1]; [by eapply IH|].
    destruct (late q e1); [by eapply IH | done].
  - destruct (exec q ps s) as [s1|e1]; [by eapply IH | done].
  - by eapply IH.
Qed.

(** In a run that raised nothing, each [session.run] either succeeded, or
    failed with a failure the store reported late and that nobody met:
    no other [session.run] followed in the session. *)
Lemma run_actions_Ok_each late pre :
  ∀ pend s0 s1 q ps post,
    run_actions late (pre ++ ARun q ps :: post) pend s0 = (Ok tt, s1) →
    ∃ s, extends s0 s ∧ extends s s1 ∧
      ((∃ s', exec q ps s = Ok s' ∧ extends s' s1) ∨
       (∃ e, exec q ps s = Raise e ∧ late q e = true ∧
          ∀ q' ps' post', post ≠ ARun q' ps' :: post')).
Proof.
  induction pre as [|a pre IH]; intros pend s0 s1 q ps post E.
  - cbn [app run_actions] in E. destruct pend; [done|]. exists s0.
    split; [done|].
    destruct (exec q ps s0) as [s'|e] eqn:E0.
    + pose proof (run_actions_extends late post None s') as Hext.
      rewrite E in Hext. split; [|by left; exists s'].
      etrans; [by eapply exec_extends | done].
    + destruct (late q e) eqn:Hlate; [|done].
      pose proof (run_actions_extends late post (Some e) s0) as Hext.
      rewrite E in Hext. split; [done|]. right. exists e.
      repeat split; try done. intros q' ps' post' ->. done.
  - assert (∀ pend' s', extends s0 s' →
      run_actions late (pre ++ ARun q ps :: post) pend' s' = (Ok tt, s1) →
      ∃ s, extends s0 s ∧ extends s s1 ∧
        ((∃ s', exec q ps s = Ok s' ∧ extends s' s1) ∨
         (∃ e, exec q ps s = Raise e ∧ late q e = true ∧
            ∀ q' ps' post', post ≠ ARun q' ps' :: post'))) as Hnext.
    { intros pend' s' Hext E'.
      destruct (IH _ _ _ _ _ _ E') as (s & H1 & H2 & H3).
      exists s. split; [by etrans | done]. }
    destruct a as [e|q0 ps0|q0 ps0|]; cbn [app run_actions] in E; [done| | |].
    + destruct pend; [done|].
      destruct (exec q0 ps0 s0) as [s'|e] eqn:E0.
      * eapply Hnext; [by eapply exec_extends | done].
      * destruct (late q0 e); [by eapply Hnext | done].
    + destruct (exec q0 ps0 s0) as [s'|e] eqn:E0; [|done].
      eapply Hnext; [by eapply exec_extends | done].
    + by eapply Hnext.
Qed.

(** *** The shape of the loader's program *)

Lemma file_actions_Forall (P : action → Prop) file q kwargs :
  (∀ e, P (ARaise e)) → (∀ ps, P (ARun q ps)) → P ASession →
  Forall P (file_actions file q kwargs).
Proof.
  intros He Hq Hs. destruct file as [rows|]; simpl; [|by constructor].
  constructor; [done|]. apply Forall_app_2; [|by constructor].
  apply Forall_fmap, Forall_forall. intros r _. unfold row_action. simpl.
  by destruct (kwargs r).
Qed.

Lemma constraint_actions_node_step :
  Forall (λ a, node_step a = true) constraint_actions.
Proof. by repeat constructor. Qed.

Lemma node_actions_node_step inp :
  Forall (λ a, node_step a = true) (node_actions inp).
Proof.
  unfold node_actions. cbn [flat_map node_loads load_actions fst snd].
  repeat apply Forall_app_2; try by apply file_actions_Forall. constructor.
Qed.

Lemma rel_actions_rel_step inp :
  Forall (λ a, rel_step a = true) (rel_actions inp).
Proof.
  unfold rel_actions. cbn [flat_map rel_loads load_actions fst snd].
  repeat apply Forall_app_2; try by apply file_actions_Forall. constructor.
Qed.

Lemma phased_rel_step l : Forall (λ a, rel_step a = true) l → phased l.
Proof. induction 1; simpl; auto. Qed.

Lemma phased_app l1 l2 :
  Forall (λ a, node_step a = true) l1 → phased l2 → phased (l1 ++ l2).
Proof. induction 1; simpl; auto. Qed.

Lemma constraint_actions_phased : phased constraint_actions.
Proof.
  rewrite <- (app_nil_r constraint_actions).
  apply phased_app; [apply constraint_actions_node_step | done].
Qed.

Lemma loads_phased inp : phased (node_actions inp ++ rel_actions inp).
Proof.
  apply phased_app; [apply node_actions_node_step|].
  apply phased_rel_step, rel_actions_rel_step.
Qed.

Lemma constraint_actions_keyed s : Forall (keyed s) constraint_actions.
Proof. by repeat constructor. Qed.

(** When the constraint step raised nothing, all six constraints are in
    force. *)
Lemma constraints_run_Ok late pend s s' :
  run_actions late constraint_actions pend s = (Ok tt, s') → all_constrained s'.
Proof.
  unfold constraint_actions, all_constrained. cbn [run_actions].
  generalize NODES as ls. generalize (@None exn) as pend'. clear pend.
  intros pend ls. revert s.
  induction ls as [|l ls IH]; intros s E; [constructor|].
  cbn [run_actions map app] in E.
  destruct (exec (CreateConstraint l) ∅ s) as [s1|e] eqn:E1; [|done].
  constructor; [|by eapply IH].
  pose proof (run_actions_extends late
    (map (λ node, ATx (CreateConstraint node) ∅) ls ++ [ASession]) pend s1)
    as Hext.
  rewrite E in Hext. simpl in Hext.
  eapply constrained_extends; [done|]. simpl in E1.
  destruct (constrained s l) eqn:Hc; [by injection E1 as <-|].
  destruct (has_dup (ids_of s l)); [done|]. injection E1 as <-.
  unfold constrained. simpl.
  by rewrite existsb_app; simpl; rewrite String.eqb_refl, orb_true_r.
Qed.

Lemma keyed_loads s inp :
  all_constrained s → Forall (keyed s) (node_actions inp ++ rel_actions inp).
Proof.
  intros Hc. unfold all_constrained, NODES in Hc.
  repeat (apply Forall_cons in Hc as [? Hc]).
  unfold node_actions, rel_actions.
  cbn [flat_map node_loads rel_loads load_actions fst snd].
  repeat apply Forall_app_2; try constructor;
    apply file_actions_Forall; try done;
    intros ps; (split; [done | by eexists]).
Qed.

(** The program runs the constraint step, then the loads. *)
Lemma run_program late inp pend s :
  run_actions late (program inp) pend s =
  match run_actions late constraint_actions pend s with
  | (Ok _, s1) => run_actions late (node_actions inp ++ rel_actions inp) None s1
  | (Raise e, s1) => (Raise e, s1)
  end.
Proof.
  unfold program, constraint_actions.
  rewrite (app_comm_cons _ [ASession] ASession). apply run_actions_app.
Qed.

(** Running the program on the database it left changes nothing. *)
Lemma program_idempotent late inp pend pend' s0 :
  (run_actions late (program inp) pend'
     (run_actions late (program inp) pend s0).2).2 =
  (run_actions late (program inp) pend s0).2.
Proof.
  rewrite (run_program late inp pend s0).
  destruct (run_actions_settled late constraint_actions s0 None None)
    as [Hc Hr]; [done | apply constraint_actions_phased
                | apply constraint_actions_keyed |].
  cbv zeta in Hc, Hr.
  change (run_actions late constraint_actions pend s0)
    with (run_actions late constraint_actions None s0).
  destruct (run_actions late constraint_actions None s0) as [[[]|e] s1] eqn:E1;
    cbn [fst snd] in *.
  - pose proof (constraints_run_Ok _ _ _ _ E1) as Hall.
    destruct (run_actions_settled late (node_actions inp ++ rel_actions inp)
                s1 None None) as [Hl _];
      [done | apply loads_phased | by apply keyed_loads |].
    cbv zeta in Hl.
    set (s2 := (run_actions late (node_actions inp ++ rel_actions inp) None s1).2)
      in *.
    assert (extends s1 s2) as Hext by apply run_actions_extends.
    assert ((run_actions late constraint_actions None s2).2 = s2) as Hc2.
    { apply quiet_stays.
      pose proof (run_actions_Ok_quiet late _ _ _ _ E1
        constraint_actions_phased (constraint_actions_keyed s0)) as Hq.
      pose proof constraint_actions_node_step as Hn.
      apply Forall_forall. intros a Ha. rewrite Forall_forall in Hq, Hn.
      eapply quiet_mono_node_step; eauto. }
    rewrite (run_program late inp pend' s2).
    change (run_actions late constraint_actions pend' s2)
      with (run_actions late constraint_actions None s2).
    destruct (run_actions late constraint_actions None s2) as [[[]|e2] s3];
      cbn [fst snd] in *; by subst.
  - rewrite (run_program late inp pend' s1).
    change (run_actions late constraint_actions pend' s1)
      with (run_actions late constraint_actions None s1).
    destruct (Hr e eq_refl) as [e' Hr'].
    destruct (run_actions late constraint_actions None s1) as [[[]|e2] s3];
      cbn [fst snd] in *; [done | by subst].
Qed.

End Replay.

Section Worlds.
Context `{Scalars}.

#[local] Existing Instance extends_preorder.

(** ** From the database to the world *)

(** An action touches neither the driver and session counts, nor the
    clock, nor the configuration. *)
Lemma act_frame a w :
  let w' := (act a w).2 in
  drivers_acquired w' = drivers_acquired w ∧
  drivers_open w' = drivers_open w ∧
  sessions_open w' = sessions_open w ∧
  slept w' = slept w ∧
  on_pull w' = on_pull w ∧
  uri_supported w' = uri_supported w.
Proof.
  destruct a as [e|q ps|q ps|]; cbn [act]; try done.
  - unfold session_run. destruct (pending w); [done|].
    destruct (faults w) as [|[] fl]; try done;
      (destruct (exec q ps (db w)) as [s'|e]; [done|]);
      by destruct (on_pull w q e).
  - unfold tx_run. destruct (faults w) as [|[] fl]; try done;
      by destruct (exec q ps (db w)).
Qed.

Lemma perform_frame l w :
  let w' := (perform l w).2 in
  drivers_acquired w' = drivers_acquired w ∧
  drivers_open w' = drivers_open w ∧
  sessions_open w' = sessions_open w ∧
  slept w' = slept w ∧
  on_pull w' = on_pull w ∧
  uri_supported w' = uri_supported w.
Proof.
  revert w. induction l as [|a l IH]; intros w; [done|].
  cbn [perform]. pose proof (act_frame a w) as Ha.
  destruct (act a w) as [[[]|e] w1]; cbn [fst snd] in Ha;
    destruct Ha as (<-&<-&<-&<-&<-&<-); [apply IH | done].
Qed.

(** What an action does to the database: nothing, or what its statement
    does when it succeeds. *)
Lemma act_db a w :
  db (act a w).2 = db w ∨
  ∃ q ps, statement a = Some (q, ps) ∧ exec q ps (db w) = Ok (db (act a w).2).
Proof.
  destruct a as [e|q ps|q ps|]; cbn [act]; try by left.
  - unfold session_run. destruct (pending w); [by left|].
    destruct (faults w) as [|[] fl]; try (by left);
      (destruct (exec q ps (db w)) as [s'|e] eqn:E;
        [right; by exists q, ps|]);
      destruct (on_pull w q e); by left.
  - unfold tx_run. destruct (faults w) as [|[] fl]; try (by left);
      (destruct (exec q ps (db w)) as [s'|e] eqn:E;
        [right; by exists q, ps | by left]).
Qed.

(** A property of the database that every successful statement of the
    list keeps is kept by performing the list, whatever the availability
    of the store. *)
Lemma perform_invariant (I : store → Prop) l w :
  (∀ a q ps s s', a ∈ l → statement a = Some (q, ps) →
     I s → exec q ps s = Ok s' → I s') →
  I (db w) → I (db (perform l w).2).
Proof.
  revert w. induction l as [|a l IH]; intros w Hexec Hw; [done|].
  cbn [perform].
  assert (I (db (act a w).2)) as Hw1.
  { destruct (act_db a w) as [->|(q & ps & Hst & E)]; [done|].
    eapply (Hexec a); [left | done..]. }
  destruct (act a w) as [[[]|e] w1]; [|done].
  apply IH; [|done]. intros a' q ps s1 s2 Ha'. apply Hexec. by right.
Qed.

(** Whatever the availability of the store, the database only grows. *)
Lemma perform_extends l w : extends (db w) (db (perform l w).2).
Proof.
  apply (perform_invariant (extends (db w))); [|done].
  intros a q ps s1 s2 _ _ H1 E. etrans; [done|]. by eapply exec_extends.
Qed.

(** With the store reachable, performing actions does to the database
    what [run_actions] says. *)
Lemma perform_no_faults l w :
  faults w = [] →
  (perform l w).1 = (run_actions (on_pull w) l (pending w) (db w)).1 ∧
  db (perform l w).2 = (run_actions (on_pull w) l (pending w) (db w)).2 ∧
  faults (perform l w).2 = [].
Proof.
  revert w. induction l as [|a l IH]; intros w Hf; [done|].
  destruct a as [e|q ps|q ps|]; cbn [perform act run_actions].
  - done.
  - unfold session_run. destruct (pending w) as [e0|] eqn:Hp; [done|].
    rewrite Hf. destruct (exec q ps (db w)) as [s'|e].
    + destruct (IH (answered w q ps s')) as (H1 & H2 & H3).
      { simpl. by rewrite Hf. }
      cbn [pending on_pull db answered] in H1, H2. rewrite Hp in H1, H2. done.
    + destruct (on_pull w q e); [|simpl; by rewrite Hf].
      apply (IH (postponed e (answered w q ps (db w)))). simpl. by rewrite Hf.
  - unfold tx_run. rewrite Hf. destruct (exec q ps (db w)) as [s'|e].
    + apply (IH (answered w q ps s')). simpl. by rewrite Hf.
    + simpl. by rewrite Hf.
  - apply (IH (forget w)). done.
Qed.

(** When nothing is raised the store was reachable throughout, and the
    database is the one [run_actions] computes. *)
Lemma perform_Ok_run l w :
  (perform l w).1 = Ok tt →
  run_actions (on_pull w) l (pending w) (db w) = (Ok tt, db (perform l w).2).
Proof.
  revert w. induction l as [|a l IH]; intros w; [done|].
  destruct a as [e|q ps|q ps|]; cbn [perform act run_actions].
  - done.
  - unfold session_run. destruct (pending w) as [e0|] eqn:Hp; [done|].
    destruct (faults w) as [|[] fl]; try done;
      (destruct (exec q ps (db w)) as [s'|e];
       [intros Hok; pose proof (IH _ Hok) as Hr;
        cbn [pending on_pull db answered] in Hr; by rewrite Hp in Hr|]);
      (destruct (on_pull w q e); [|done]);
      intros Hok; apply (IH _ Hok).
  - unfold tx_run.
    destruct (faults w) as [|[] fl]; try done;
      (destruct (exec q ps (db w)) as [s'|e]; [|done]);
      intros Hok; apply (IH _ Hok).
  - intros Hok. apply (IH _ Hok).
Qed.

Lemma statements_app l1 l2 :
  statements (l1 ++ l2) = statements l1 ++ statements l2.
Proof. apply omap_app. Qed.

(** The statements handed to the store during the actions are, in order,
    an initial part of the statements of the list; all of them when
    nothing was raised. *)
Lemma perform_issued l w :
  ∃ t, issued (perform l w).2 = issued w ++ t ∧
    t `prefix_of` statements l ∧
    ((perform l w).1 = Ok tt → t = statements l).
Proof.
  revert w. induction l as [|a l IH]; intros w.
  { exists []. by rewrite app_nil_r. }
  cbn [perform].
  assert (∃ t, issued (act a w).2 = issued w ++ t ∧
            t `prefix_of` statements [a] ∧
            ((act a w).1 = Ok tt → t = statements [a])) as (t1 & E1 & Hp1 & Hok1).
  { destruct a as [e|q ps|q ps|]; cbn [act].
    - exists []. by rewrite app_nil_r.
    - unfold session_run. destruct (pending w).
      { exists []. rewrite app_nil_r. repeat split; [apply prefix_nil | done]. }
      exists [(q, ps)].
      destruct (faults w) as [|[] fl]; try done;
        (destruct (exec q ps (db w)) as [s'|e]; [done|]);
        by destruct (on_pull w q e).
    - unfold tx_run. exists [(q, ps)].
      destruct (faults w) as [|[] fl]; try done;
        by destruct (exec q ps (db w)).
    - exists []. by rewrite app_nil_r. }
  change (a :: l) with ([a] ++ l). rewrite statements_app.
  destruct (act a w) as [[[]|e] w1]; cbn [fst snd] in *.
  - destruct (IH w1) as (t & Et & Hp & Hok).
    specialize (Hok1 eq_refl). subst t1.
    exists (statements [a] ++ t). rewrite Et, E1, <- app_assoc.
    split; [done|]. split; [by apply prefix_app|].
    intros Hu. f_equal. by apply Hok.
  - exists t1. split; [done|]. split; [|done].
    etrans; [done|]. by apply prefix_app_r.
Qed.

(** An attempt that raised nothing performed no action that raises. *)
Lemma perform_Ok_no_raise l w e : (perform l w).1 = Ok tt → ARaise e ∉ l.
Proof.
  intros Hok. eapply run_actions_Ok_no_raise. by apply perform_Ok_run.
Qed.

(** *** One attempt *)

Lemma load_frame inp w :
  let w' := (load_hospital_graph_from_csv inp w).2 in
  sessions_open w' = sessions_open w ∧ slept w' = slept w ∧
  on_pull w' = on_pull w ∧ uri_supported w' = uri_supported w.
Proof.
  cbv zeta. rewrite load_unfold. destruct (uri_supported w) eqn:Hu; [|done].
  destruct (perform_frame (program inp) (acquired w)) as (_&_&Hs&Ht&Hp&Hu').
  destruct (perform (program inp) (acquired w)) as [[[]|e] w1]; simpl in *;
    repeat split; congruence.
Qed.

(** With a URI the driver refuses, the attempt raises before anything is
    done. *)
Lemma load_unconfigured inp w :
  uri_supported w = false →
  load_hospital_graph_from_csv inp w = (Raise ConfigurationError, w).
Proof. intros Hu. by rewrite load_unfold, Hu. Qed.

Lemma load_no_faults inp w :
  faults w = [] → uri_supported w = true →
  (load_hospital_graph_from_csv inp w).1 =
    (run_actions (on_pull w) (program inp) None (db w)).1 ∧
  db (load_hospital_graph_from_csv inp w).2 =
    (run_actions (on_pull w) (program inp) None (db w)).2 ∧
  faults (load_hospital_graph_from_csv inp w).2 = [].
Proof.
  intros Hf Hu. rewrite load_unfold, Hu.
  destruct (perform_no_faults (program inp) (acquired w)) as (Hr & Hd & Hf');
    [done|].
  change (run_actions (on_pull (acquired w)) (program inp)
            (pending (acquired w)) (db (acquired w)))
    with (run_actions (on_pull w) (program inp) None (db w)) in *.
  destruct (perform (program inp) (acquired w)) as [[[]|e] w1];
    simpl in *; rewrite <- Hr, <- Hd; done.
Qed.

(** After an attempt that raised nothing, the database is the one
    [run_actions] computes. *)
Lemma load_Ok_run inp w :
  (load_hospital_graph_from_csv inp w).1 = Ok tt →
  uri_supported w = true ∧
  run_actions (on_pull w) (program inp) None (db w) =
    (Ok tt, db (load_hospital_graph_from_csv inp w).2).
Proof.
  rewrite load_unfold. destruct (uri_supported w); [|done]. intros Hok.
  split; [done|].
  pose proof (perform_Ok_run (program inp) (acquired w)) as Hrun.
  change (run_actions (on_pull (acquired w)) (program inp)
            (pending (acquired w)) (db (acquired w)))
    with (run_actions (on_pull w) (program inp) None (db w)) in Hrun.
  destruct (perform (program inp) (acquired w)) as [[[]|e] w1]; [|done].
  by apply Hrun.
Qed.

Lemma load_invariant (I : store → Prop) inp w :
  (∀ a q ps s s', a ∈ program inp → statement a = Some (q, ps) →
     I s → exec q ps s = Ok s' → I s') →
  I (db w) → I (db (load_hospital_graph_from_csv inp w).2).
Proof.
  intros Hexec Hw. rewrite load_unfold. destruct (uri_supported w); [|done].
  pose proof (perform_invariant I (program inp) (acquired w) Hexec Hw) as Hp.
  by destruct (perform (program inp) (acquired w)) as [[[]|e] w1].
Qed.

Lemma load_extends inp w :
  extends (db w) (db (load_hospital_graph_from_csv inp w).2).
Proof.
  apply (load_invariant (extends (db w))); [|done].
  intros a q ps s1 s2 _ _ H1 E. etrans; [done|]. by eapply exec_extends.
Qed.

(** *** The retried run *)

Lemma retry_call_S {A} (f : M A) n d w :
  retry_call f (S n) d w =
  match f w with
  | (Ok a, w') => (Ok (Some a), w')
  | (Raise e, w') =>
      match n with
      | 0 => (Raise e, w')
      | S _ => retry_call f n d (sleep d w')
      end
  end.
Proof. reflexivity. Qed.

Lemma retry_invariant (I : store → Prop) inp d n w :
  (∀ a q ps s s', a ∈ program inp → statement a = Some (q, ps) →
     I s → exec q ps s = Ok s' → I s') →
  I (db w) →
  I (db (retry_call (load_hospital_graph_from_csv inp) (S n) d w).2).
Proof.
  intros Hexec. revert w. induction n as [|n IH]; intros w Hw;
    rewrite retry_call_S;
    pose proof (load_invariant I inp w Hexec Hw) as Hl;
    destruct (load_hospital_graph_from_csv inp w) as [[[]|e] w1]; try done.
  by apply (IH (sleep d w1)).
Qed.

Lemma retry_no_faults inp d n w :
  faults w = [] → uri_supported w = true →
  db (retry_call (load_hospital_graph_from_csv inp) (S n) d w).2 =
    (run_actions (on_pull w) (program inp) None (db w)).2 ∧
  faults (retry_call (load_hospital_graph_from_csv inp) (S n) d w).2 = [] ∧
  on_pull (retry_call (load_hospital_graph_from_csv inp) (S n) d w).2 =
    on_pull w ∧
  uri_supported (retry_call (load_hospital_graph_from_csv inp) (S n) d w).2 =
    true.
Proof.
  revert w. induction n as [|n IH]; intros w Hf Hu;
    destruct (load_no_faults inp w Hf Hu) as (Hr & Hd & Hf');
    destruct (load_frame inp w) as (_ & _ & Hp & Hu');
    rewrite retry_call_S;
    destruct (load_hospital_graph_from_csv inp w) as [[[]|e] w1];
    cbn [fst snd] in *; try (by rewrite Hu' by done).
  destruct (IH (sleep d w1)) as (Hd' & Hf'' & Hp' & Hu''); [done | by rewrite <- Hu|].
  change (on_pull (sleep d w1)) with (on_pull w1) in *.
  change (db (sleep d w1)) with (db w1) in *.
  rewrite Hd', Hf'', Hp', Hu'', Hp, Hd.
  split; [|done]. apply program_idempotent.
Qed.

End Worlds.

Section Idempotence.
Context `{Scalars}.

(** ** Running the load twice *)

(** With a URI the driver refuses, every attempt raises before anything
    is done: the retried run sleeps between its attempts and gives up. *)
Lemma retry_unconfigured inp d n w :
  uri_supported w = false →
  ∃ w', retry_call (load_hospital_graph_from_csv inp) (S n) d w =
          (Raise ConfigurationError, w') ∧
    db w' = db w ∧ issued w' = issued w ∧ faults w' = faults w ∧
    drivers_acquired w' = drivers_acquired w ∧
    drivers_open w' = drivers_open w ∧
    sessions_open w' = sessions_open w ∧
    uri_supported w' = false ∧ slept w' = slept w + d * n.
Proof.
  revert w. induction n as [|n IH]; intros w Hu;
    rewrite retry_call_S, (load_unconfigured inp w Hu).
  - exists w. repeat split; try done. lia.
  - destruct (IH (sleep d w) Hu) as (w' & -> & H1 & H2 & H3 & H4 & H5 & H6 & H7 & H8).
    exists w'. simpl in *. repeat split; try done. lia.
Qed.

(** C3. With the store reachable, running the load a second time on the
    same files leaves the database (nodes, relationships, constraints)
    exactly as the first run left it: nothing is added, so no duplicate
    node and no parallel relationship is created.  This holds for one
    attempt and for the whole retried run. *)
Theorem load_twice_same_graph (inp : inputs) (w : world) :
  faults w = [] →
  let once := (load_hospital_graph_from_csv inp w).2 in
  let twice := (load_hospital_graph_from_csv inp once).2 in
  let main_once := (main inp w).2 in
  let main_twice := (main inp main_once).2 in
  db twice = db once ∧ db main_twice = db main_once.
Proof.
  intros Hf. cbv zeta. destruct (uri_supported w) eqn:Hu.
  - split.
    + destruct (load_no_faults inp w Hf Hu) as (_ & Hd & Hf').
      destruct (load_frame inp w) as (_ & _ & Hp & Hu').
      rewrite Hu in Hu'.
      destruct (load_no_faults inp _ Hf' Hu') as (_ & Hd' & _).
      rewrite Hd', Hp, Hd. apply program_idempotent.
    + unfold main.
      destruct (retry_no_faults inp 10 99 w Hf Hu) as (Hd & Hf' & Hp & Hu').
      destruct (retry_no_faults inp 10 99 _ Hf' Hu') as (Hd' & _).
      rewrite Hd', Hp, Hd. apply program_idempotent.
  - rewrite (load_unconfigured inp w Hu). cbn [snd].
    rewrite (load_unconfigured inp w Hu). split; [done|]. unfold main.
    destruct (retry_unconfigured inp 10 99 w Hu) as (w1 & -> & Hd & _ & _ & _ & _ & _ & Hu1 & _).
    cbn [snd].
    destruct (retry_unconfigured inp 10 99 w1 Hu1) as (w2 & -> & Hd' & _).
    done.
Qed.

End Idempotence.

Section Attempts.
Context `{Scalars}.

(** ** Drivers, sessions and attempts *)

(** One attempt acquires one driver if the URI is one the driver accepts,
    leaves no session open, and closes the driver exactly when nothing
    was raised. *)
Lemma load_accounting inp w :
  let r := (load_hospital_graph_from_csv inp w).1 in
  let w' := (load_hospital_graph_from_csv inp w).2 in
  let one := if uri_supported w then 1 else 0 in
  drivers_acquired w' = drivers_acquired w + one ∧
  sessions_open w' = sessions_open w ∧
  slept w' = slept w ∧
  drivers_open w' =
    drivers_open w + match r with Ok _ => 0 | Raise _ => one end.
Proof.
  cbv zeta. rewrite load_unfold. destruct (uri_supported w).
  - destruct (perform_frame (program inp) (acquired w)) as (Ha & Ho & Hs & Ht & _).
    destruct (perform (program inp) (acquired w)) as [[[]|e] w1];
      simpl in *; rewrite Ha, Ho, Hs, Ht; repeat split; lia.
  - simpl. repeat split; lia.
Qed.

Lemma attempt_start_shift {A} (f : M A) d i w :
  attempt_start f d (S i) w = attempt_start f d i (sleep d (f w).2).
Proof.
  induction i as [|i IH]; [done|].
  change (attempt_start f d (S (S i)) w)
    with (sleep d (f (attempt_start f d (S i) w)).2).
  by rewrite IH.
Qed.

(** The retried call makes its attempts one after the other, sleeping
    between two of them, until one raises nothing or none is left. *)
Lemma retry_attempts inp d n w :
  let attempt := load_hospital_graph_from_csv inp in
  let start := λ i, attempt_start attempt d i w in
  ∃ k, k ≤ n ∧
    (∀ i, i < k → ∃ e, (attempt (start i)).1 = Raise e) ∧
    retry_call attempt (S n) d w =
      match attempt (start k) with
      | (Ok _, w') => (Ok (Some tt), w')
      | (Raise e, w') => (Raise e, w')
      end ∧
    ((∃ e, (attempt (start k)).1 = Raise e) → k = n) ∧
    slept (retry_call attempt (S n) d w).2 = slept w + d * k.
Proof.
  cbv zeta. revert w. induction n as [|n IH]; intros w;
    rewrite retry_call_S;
    destruct (load_frame inp w) as (_ & Ht & _);
    destruct (load_hospital_graph_from_csv inp w) as [[[]|e] w1] eqn:E;
    cbn [fst snd] in Ht.
  1-3: exists 0; cbn [attempt_start]; rewrite E;
    (split; [lia|]); (split; [intros i Hi; lia|]); (split; [done|]);
    (split; [intros [e0 He0]; (done || discriminate He0) | simpl; lia]).
  - destruct (IH (sleep d w1)) as (k & Hk & Hr & Em & Hl & Hs).
    assert (∀ i, attempt_start (load_hospital_graph_from_csv inp) d (S i) w =
                 attempt_start (load_hospital_graph_from_csv inp) d i (sleep d w1))
      as Hshift.
    { intros i. by rewrite attempt_start_shift, E. }
    exists (S k). rewrite Hshift. split; [lia|]. split; [|split; [done|split]].
    + intros [|i] Hi.
      * exists e. cbn [attempt_start]. by rewrite E.
      * rewrite Hshift. apply Hr. lia.
    + intros He. f_equal. by apply Hl.
    + rewrite Hs. change (slept (sleep d w1)) with (slept w1 + d). lia.
Qed.

(** C2 (as the code behaves).  The retried run makes its attempts one
    after the other, each in the world the one before left, 10 seconds
    later.  Whatever error an attempt raises, be it a transient store
    error or not, another attempt follows as long as fewer than 100 were
    made: every attempt before the last one, number [n], raised; the run
    returns what attempt [n] returns, and attempt [n] raised only if it
    is the 100th.  All in all the run has slept 10 seconds [n] times. *)
Theorem every_error_is_retried (inp : inputs) (w : world) :
  let attempt := load_hospital_graph_from_csv inp in
  let start := λ i, attempt_start attempt 10 i w in
  ∃ n, n < 100 ∧
    (∀ i, i < n → ∃ e, (attempt (start i)).1 = Raise e) ∧
    main inp w =
      match attempt (start n) with
      | (Ok _, w') => (Ok (Some tt), w')
      | (Raise e, w') => (Raise e, w')
      end ∧
    ((∃ e, (attempt (start n)).1 = Raise e) → n = 99) ∧
    slept (main inp w).2 = slept w + 10 * n.
Proof.
  cbv zeta. destruct (retry_attempts inp 10 99 w) as (k & Hk & H1 & H2 & H3 & H4).
  exists k. split; [lia|]. done.
Qed.

End Attempts.

Section AttemptsExamples.
#[local] Existing Instance decimal.

Lemma every_error_is_retried_example :
  let attempt := load_hospital_graph_from_csv files_hospitals_unreadable in
  let start := λ i, attempt_start attempt 10 i clean_world in
  ∃ n, n < 100 ∧
    (∀ i, i < n → ∃ e, (attempt (start i)).1 = Raise e) ∧
    main files_hospitals_unreadable clean_world =
      match attempt (start n) with
      | (Ok _, w') => (Ok (Some tt), w')
      | (Raise e, w') => (Raise e, w')
      end ∧
    ((∃ e, (attempt (start n)).1 = Raise e) → n = 99) ∧
    slept (main files_hospitals_unreadable clean_world).2 =
      slept clean_world + 10 * n.
Proof. exact (every_error_is_retried files_hospitals_unreadable clean_world). Defined.

(** C2 (counterexample).  The hospitals file cannot be opened: not a
    transient store error.  The run is nevertheless retried: 100 attempts
    are made, each acquiring a driver and declaring the six constraints
    anew, 990 seconds are slept, and only then the error surfaces.  The
    same happens when [NEO4J_URI] is unset: the driver's refusal is raised
    100 times over, 10 seconds apart. *)
Lemma configuration_error_is_retried :
  let r := (main files_hospitals_unreadable clean_world).1 in
  let w' := (main files_hospitals_unreadable clean_world).2 in
  let u := main example_files unconfigured_world in
  r = Raise OpenFailed ∧ transient OpenFailed = false ∧
  drivers_acquired w' = 100 ∧ length (issued w') = 600 ∧ slept w' = 990 ∧
  u.1 = Raise ConfigurationError ∧ transient ConfigurationError = false ∧
  slept u.2 = 990.
Proof. vm_compute. done. Qed.

(** C6 (failing input).  The hospitals file cannot be opened: the attempt
    raises, every session was closed, but the one driver acquired is still
    open: [driver.close()] is reached only at the end of a successful
    attempt. *)
Theorem driver_left_open_on_failure :
  let r := (load_hospital_graph_from_csv files_hospitals_unreadable clean_world).1 in
  let w' := (load_hospital_graph_from_csv files_hospitals_unreadable clean_world).2 in
  r = Raise OpenFailed ∧ drivers_acquired w' = 1 ∧ sessions_open w' = 0 ∧
  drivers_open w' = 1.
Proof. vm_compute. done. Qed.

Lemma load_twice_same_graph_example :
  faults clean_world = [] ∧
  db (load_hospital_graph_from_csv example_files
        (load_hospital_graph_from_csv example_files clean_world).2).2 =
    db (load_hospital_graph_from_csv example_files clean_world).2 ∧
  db (main example_files (main example_files clean_world).2).2 =
    db (main example_files clean_world).2.
Proof.
  split; [reflexivity|].
  exact (load_twice_same_graph example_files clean_world eq_refl).
Defined.

End AttemptsExamples.

Section MissingEndpoints.
Context `{Scalars}.

(** ** Relationship rows whose endpoints are not loaded *)

Lemma list_prod_nil_r {A B} (xs : list A) : list_prod xs (@nil B) = [].
Proof. by induction xs. Qed.

Lemma exec_rel_unfold a b ty oc ps s avs bvs cvs :
  eval_props ps (pat_props a) = Ok avs →
  eval_props ps (pat_props b) = Ok bvs →
  eval_props ps oc = Ok cvs →
  exec (MatchMergeRel a b ty oc) ps s =
  Ok (merge_rels ty (props_of cvs)
        (list_prod (endpoint_matches s ps a) (endpoint_matches s ps b)) s).
Proof.
  intros Ea Eb Ec. unfold endpoint_matches. simpl. by rewrite Ea, Eb, Ec.
Qed.

(** The parameters a relationship loader passes are those its statement
    mentions. *)
Lemma rel_loader_evals q kwargs a b ty oc r ps :
  (q, kwargs) ∈ rel_loaders →
  q = MatchMergeRel a b ty oc →
  kwargs r = Ok ps →
  ∃ avs bvs cvs, eval_props ps (pat_props a) = Ok avs ∧
    eval_props ps (pat_props b) = Ok bvs ∧ eval_props ps oc = Ok cvs.
Proof.
  intros Hin Hq Hk. unfold rel_loaders in Hin.
  repeat (apply elem_of_cons in Hin as [Hin|Hin];
          [injection Hin as -> ->; injection Hq as <- <- <- <-|]);
    [..|by apply elem_of_nil in Hin];
    kwargs_inv Hk; do 3 eexists; repeat split; reflexivity.
Qed.

(** C1 (as the code behaves).  For each of the six relationship loaders
    and every row it is run on: when the source-side or the target-side
    business key matches no node of the database, the statement completes
    without any error and leaves the database unchanged (no relationship
    is created): the row is skipped silently. *)
Theorem missing_endpoint_is_skipped
    (q : query) (kwargs : row → outcome params)
    (a b : node_pattern) (ty : string) (oc : list (string * expr))
    (r : row) (ps : params) (s : store) :
  (q, kwargs) ∈ rel_loaders →
  q = MatchMergeRel a b ty oc →
  kwargs r = Ok ps →
  endpoint_matches s ps a = [] ∨ endpoint_matches s ps b = [] →
  exec q ps s = Ok s.
Proof.
  intros Hin Hq Hk Hnone.
  destruct (rel_loader_evals _ _ _ _ _ _ _ _ Hin Hq Hk)
    as (avs & bvs & cvs & Ea & Eb & Ec).
  subst q. rewrite (exec_rel_unfold _ _ _ _ _ _ _ _ _ Ea Eb Ec).
  destruct Hnone as [-> | ->]; [done | by rewrite list_prod_nil_r].
Qed.

End MissingEndpoints.

Section MissingEndpointsExamples.
#[local] Existing Instance decimal.
Local Open Scope string_scope.

(** C1 (counterexample).  The visits file has a row for visit 100 at
    hospital 1, and no hospital is loaded.  The attempt completes without
    any error; no [AT] relationship exists afterwards. *)
Lemma missing_hospital_raises_nothing :
  let r := (load_hospital_graph_from_csv files_without_hospital clean_world).1 in
  let w' := (load_hospital_graph_from_csv files_without_hospital clean_world).2 in
  visit_100 !! "hospital_id" = Some (Some "1") ∧
  match_nodes (db w') "Hospital" [("id", Some (VInt 1))] = [] ∧
  r = Ok tt ∧
  existsb (λ r, String.eqb (rtype r) "AT") (rels (db w')) = false.
Proof. vm_compute. done. Qed.

Lemma missing_endpoint_is_skipped_example :
  let s := db (load_hospital_graph_from_csv files_without_hospital clean_world).2 in
  let ps : params :=
    list_to_map [("visit_id", Some "100"); ("hospital_id", Some "1")] in
  endpoint_matches s ps (NodePat "Hospital" [("id", EToInteger "hospital_id")]) = [] ∧
  exec merge_at ps s = Ok s.
Proof.
  split; [reflexivity|].
  apply (missing_endpoint_is_skipped merge_at at_kwargs
           (NodePat "Visit" [("id", EToInteger "visit_id")])
           (NodePat "Hospital" [("id", EToInteger "hospital_id")])
           "AT" [] visit_100).
  - left.
  - reflexivity.
  - reflexivity.
  - right. reflexivity.
Defined.

End MissingEndpointsExamples.

Section Order.
Context `{Scalars}.

#[local] Existing Instance extends_preorder.

(** ** The order of the statements *)

Lemma load_issued inp w :
  ∃ t, issued (load_hospital_graph_from_csv inp w).2 = issued w ++ t ∧
    t `prefix_of` statements (program inp).
Proof.
  rewrite load_unfold. destruct (uri_supported w).
  - destruct (perform_issued (program inp) (acquired w)) as (t & Et & Hp & _).
    exists t. split; [|done].
    by destruct (perform (program inp) (acquired w)) as [[[]|e] w1].
  - exists []. rewrite app_nil_r. split; [done | apply prefix_nil].
Qed.

(** If more statements were issued than a first part of the actions
    holds, that first part was performed without raising. *)
Lemma perform_app_issued l1 l2 w n :
  length (issued w) + length (statements l1) < n →
  n ≤ length (issued (perform (l1 ++ l2) w).2) →
  ∃ w1, perform l1 w = (Ok tt, w1) ∧
    perform (l1 ++ l2) w = perform l2 w1.
Proof.
  intros Hlt Hle. rewrite perform_app in *.
  destruct (perform_issued l1 w) as (t & Et & Hp & _).
  destruct (perform l1 w) as [[[]|e] w1]; [by exists w1|].
  simpl in *. rewrite Et, length_app in Hle.
  apply prefix_length in Hp. lia.
Qed.

Lemma elem_of_statements l qp :
  qp ∈ statements l ↔ ∃ a, a ∈ l ∧ statement a = Some qp.
Proof. unfold statements. apply list_elem_of_omap. Qed.

Lemma statements_phase n l :
  Forall (action_phase n) l → Forall (λ qp, phase qp = n) (statements l).
Proof.
  intros Hl. apply Forall_forall. intros qp Hqp.
  apply elem_of_statements in Hqp as (a & Ha & Hst).
  rewrite Forall_forall in Hl. specialize (Hl a Ha).
  unfold action_phase in Hl. by rewrite Hst in Hl.
Qed.

Lemma constraint_actions_phase : Forall (action_phase 0) constraint_actions.
Proof. by repeat constructor. Qed.

Lemma node_actions_phase inp : Forall (action_phase 1) (node_actions inp).
Proof.
  unfold node_actions. cbn [flat_map node_loads load_actions fst snd].
  repeat apply Forall_app_2; try by apply file_actions_Forall. constructor.
Qed.

Lemma rel_actions_phase inp : Forall (action_phase 2) (rel_actions inp).
Proof.
  unfold rel_actions. cbn [flat_map rel_loads load_actions fst snd].
  repeat apply Forall_app_2; try by apply file_actions_Forall. constructor.
Qed.

Lemma statements_program inp :
  statements (program inp) =
  constraint_statements ++ statements (node_actions inp) ++
  statements (rel_actions inp).
Proof. unfold program. by rewrite !statements_app. Qed.

(** Where a statement sits among those of the program tells its step. *)
Lemma program_lookup inp i qp :
  statements (program inp) !! i = Some qp →
  (i < 6 ∧ phase qp = 0) ∨
  (6 ≤ i < 6 + length (statements (node_actions inp)) ∧ phase qp = 1) ∨
  (6 + length (statements (node_actions inp)) ≤ i ∧ phase qp = 2).
Proof.
  rewrite statements_program. intros Hi.
  apply lookup_app_Some in Hi as [Hi|[Hge Hi]].
  { left. split; [by apply lookup_lt_Some in Hi|].
    pose proof (statements_phase _ _ constraint_actions_phase) as Hc.
    rewrite Forall_lookup in Hc. apply (Hc _ _ Hi). }
  change (length constraint_statements) with 6 in *.
  apply lookup_app_Some in Hi as [Hi|[Hge' Hi]].
  - right; left. split; [apply lookup_lt_Some in Hi; lia|].
    pose proof (statements_phase _ _ (node_actions_phase inp)) as Hc.
    rewrite Forall_lookup in Hc. apply (Hc _ _ Hi).
  - right; right. split; [lia|].
    pose proof (statements_phase _ _ (rel_actions_phase inp)) as Hc.
    rewrite Forall_lookup in Hc. apply (Hc _ _ Hi).
Qed.

Lemma elem_of_load_actions file q kwargs loads a :
  (file, q, kwargs) ∈ loads → a ∈ file_actions file q kwargs →
  a ∈ flat_map load_actions loads.
Proof.
  intros Hin Ha. rewrite list_elem_of_In, in_flat_map.
  exists (file, q, kwargs). by rewrite <- !list_elem_of_In.
Qed.

(** Every row of a file that was opened has its action among those of
    the file. *)
Lemma row_action_in_file rows q kwargs r :
  r ∈ rows → row_action q kwargs r ∈ file_actions (Some rows) q kwargs.
Proof.
  intros Hr. cbn [file_actions]. right. apply elem_of_app. left.
  by apply list_elem_of_fmap_2.
Qed.

(** C5.  The statements an attempt hands to the store, in the order it
    hands them over, are sorted by step: constraint declarations, then
    node merges, then relationship merges.  When a node merge is issued,
    the six constraint declarations are the first six statements and all
    six constraints are in force.  When a relationship merge is issued,
    every node file was opened and the node merge of each of its rows was
    issued before; in particular both endpoint node types have been
    loaded. *)
Theorem steps_in_strict_order (inp : inputs) (w : world) :
  let w' := (load_hospital_graph_from_csv inp w).2 in
  ∃ t, issued w' = issued w ++ t ∧
    (∀ i j a b, i ≤ j → t !! i = Some a → t !! j = Some b →
       phase a ≤ phase b) ∧
    (∀ j b, t !! j = Some b → 1 ≤ phase b →
       6 ≤ j ∧ take 6 t = constraint_statements ∧ all_constrained (db w')) ∧
    (∀ j b, t !! j = Some b → phase b = 2 →
       ∀ file q kwargs, (file, q, kwargs) ∈ node_loads inp →
         ∃ rows, file = Some rows ∧
           ∀ r, r ∈ rows →
             ∃ ps i, kwargs r = Ok ps ∧ i < j ∧ t !! i = Some (q, ps)).
Proof.
  cbv zeta. destruct (load_issued inp w) as (t & Et & Hp).
  exists t. split; [done|].
  assert (∀ i qp, t !! i = Some qp → statements (program inp) !! i = Some qp)
    as Hlook by (intros; by eapply prefix_lookup_Some).
  assert (t ≠ [] → uri_supported w = true) as Huri.
  { intros Hne. destruct (uri_supported w) eqn:Hu; [done|].
    rewrite (load_unconfigured inp w Hu) in Et. cbn [snd] in Et.
    destruct t; [done|]. apply (f_equal length) in Et.
    rewrite length_app in Et. simpl in Et. lia. }
  split; [|split].
  - intros i j a b Hij Ha Hb.
    apply Hlook, program_lookup in Ha, Hb. lia.
  - intros j b Hb Hph.
    pose proof (Hlook _ _ Hb) as Hpb. apply program_lookup in Hpb.
    assert (6 ≤ j) as Hj by lia. split; [done|].
    apply lookup_lt_Some in Hb as Hlen.
    split.
    + destruct Hp as [rest Hp]. rewrite statements_program in Hp.
      transitivity (take 6 (t ++ rest)); [by rewrite take_app_le by lia|].
      rewrite <- Hp. by rewrite take_app_le by done.
    + assert (uri_supported w = true) as Hu by (apply Huri; by destruct t).
      rewrite load_unfold, Hu in Et |- *.
      destruct (perform_app_issued constraint_actions
                  (node_actions inp ++ rel_actions inp) (acquired w)
                  (length (issued w) + 7)) as (w1 & E1 & E2).
      { change (length (statements constraint_actions)) with 6.
        change (issued (acquired w)) with (issued w). lia. }
      { fold (program inp).
        destruct (perform (program inp) (acquired w)) as [[[]|e] w2];
          simpl in Et |- *; rewrite Et, length_app; lia. }
      fold (program inp) in E2. rewrite E2.
      pose proof (perform_Ok_run constraint_actions (acquired w)) as Hrun.
      rewrite E1 in Hrun. specialize (Hrun eq_refl).
      apply constraints_run_Ok in Hrun.
      pose proof (perform_extends (node_actions inp ++ rel_actions inp) w1)
        as Hext.
      assert (all_constrained
        (db (perform (node_actions inp ++ rel_actions inp) w1).2)) as Hall.
      { unfold all_constrained in *. eapply Forall_impl; [done|].
        intros l Hl. by eapply constrained_extends. }
      by destruct (perform (node_actions inp ++ rel_actions inp) w1)
        as [[[]|e] w2].
  - intros j b Hb Hph file q kwargs Hin.
    pose proof (Hlook _ _ Hb) as Hpb. apply program_lookup in Hpb.
    set (sn := statements (node_actions inp)) in *.
    assert (6 + length sn ≤ j) as Hj by lia.
    apply lookup_lt_Some in Hb as Hlen.
    assert (uri_supported w = true) as Hu by (apply Huri; by destruct t).
    assert (∀ e, ARaise e ∉ node_actions inp) as Hnoraise.
    { intros e He. rewrite load_unfold, Hu in Et.
      destruct (perform_app_issued (constraint_actions ++ node_actions inp)
                  (rel_actions inp) (acquired w)
                  (length (issued w) + S (6 + length sn))) as (w1 & E1 & _).
      { rewrite statements_app, length_app.
        change (length (statements constraint_actions)) with 6.
        change (issued (acquired w)) with (issued w). fold sn. lia. }
      { rewrite <- app_assoc. fold (program inp).
        destruct (perform (program inp) (acquired w)) as [[[]|e'] w2];
          simpl in Et |- *; rewrite Et, length_app; lia. }
      eapply (perform_Ok_no_raise _ (acquired w) e); [by rewrite E1|].
      apply elem_of_app. by right. }
    assert (∀ qp, qp ∈ sn → ∃ i, i < j ∧ t !! i = Some qp) as Hnode.
    { intros qp Hqp. apply list_elem_of_lookup in Hqp as [i Hi].
      apply lookup_lt_Some in Hi as Hilen.
      destruct (lookup_lt_is_Some_2 t (6 + i)) as [qp' Hqp']; [lia|].
      exists (6 + i). split; [lia|]. rewrite Hqp'. f_equal.
      apply Hlook in Hqp'. rewrite statements_program in Hqp'.
      rewrite lookup_app_r in Hqp'
        by (change (length constraint_statements) with 6; lia).
      change (length constraint_statements) with 6 in Hqp'.
      replace (6 + i - 6) with i in Hqp' by lia.
      fold sn in Hqp'. rewrite lookup_app_l in Hqp' by done. congruence. }
    destruct file as [rows|].
    + exists rows. split; [done|]. intros r Hr.
      assert (row_action q kwargs r ∈ node_actions inp) as Hact.
      { eapply elem_of_load_actions; [done|]. by apply row_action_in_file. }
      unfold row_action in Hact.
      destruct (kwargs r) as [ps|e]; [|by apply Hnoraise in Hact].
      destruct (Hnode (q, ps)) as (i & Hi & Hti).
      { apply elem_of_statements. by exists (ARun q ps). }
      by exists ps, i.
    + exfalso. apply (Hnoraise OpenFailed).
      eapply elem_of_load_actions; [done|]. left.
Qed.

End Order.
Section Relationships.
Context `{Scalars}.

#[local] Existing Instance extends_preorder.

(** ** Where relationships come from *)

Lemma creates_extends s s' a r : creates s a r → extends s s' → creates s' a r.
Proof.
  unfold creates.
  destruct (statement a) as [[[l|pat|pa pb ty oc] ps]|]; try done.
  intros (avs & bvs & cvs & Ea & Eb & Ec & Ht & Hp & Hx & Hy) (Hn & _ & _).
  exists avs, bvs, cvs. repeat split; try done;
    by eapply node_at_matches_extends.
Qed.

Lemma rels_grow_refl s : rels_grow s s.
Proof.
  exists []. rewrite app_nil_r. split; [done|].
  intros r Hr. by apply elem_of_nil in Hr.
Qed.

Lemma has_rel_false_prefix s s' ty x y :
  rels s `prefix_of` rels s' →
  has_rel s' ty x y = false → has_rel s ty x y = false.
Proof.
  intros Hp Hf. destruct (has_rel s ty x y) eqn:E; [|done].
  unfold has_rel in *. by rewrite (existsb_prefix _ _ _ Hp E) in Hf.
Qed.

Lemma rels_grow_trans s1 s2 s3 :
  rels_grow s1 s2 → rels_grow s2 s3 → rels_grow s1 s3.
Proof.
  intros (n1 & E1 & H1) (n2 & E2 & H2). exists (n1 ++ n2).
  split; [by rewrite E2, E1, app_assoc|].
  intros r Hr. apply elem_of_app in Hr as [Hr|Hr]; [auto|].
  eapply has_rel_false_prefix; [|by apply H2].
  rewrite E1. by apply prefix_app_r.
Qed.

Lemma rels_from_refl l s : rels_from l s s.
Proof. split; [done|]. split; [apply rels_grow_refl | auto]. Qed.

Lemma rels_from_trans l s1 s2 s3 :
  rels_from l s1 s2 → rels_from l s2 s3 → rels_from l s1 s3.
Proof.
  intros (He1 & Hg1 & Hc1) (He2 & Hg2 & Hc2).
  split; [by etrans|]. split; [by eapply rels_grow_trans|].
  intros r Hr. destruct (Hc2 r Hr) as [Hr2|?]; [|by right].
  destruct (Hc1 r Hr2) as [?|(a & Ha & Hcr)]; [by left|].
  right. exists a. split; [done|]. by eapply creates_extends.
Qed.

Lemma rels_from_weaken l l' s s' :
  l ⊆ l' → rels_from l s s' → rels_from l' s s'.
Proof.
  intros Hsub (He & Hg & Hc). split; [done|]. split; [done|].
  intros r Hr. destruct (Hc r Hr) as [?|(a & Ha & Hcr)]; [by left|].
  right. exists a. split; [by apply Hsub | done].
Qed.

Lemma exec_rels_from a q ps s s' :
  statement a = Some (q, ps) → exec q ps s = Ok s' → rels_from [a] s s'.
Proof.
  intros Hst E. split; [by eapply exec_extends|].
  destruct (is_rel_query q) eqn:Hq.
  - destruct q as [l|pat|pa pb ty oc]; try done. simpl in E.
    destruct (eval_props ps (pat_props pa)) as [avs|e] eqn:Ea; [|done].
    destruct (eval_props ps (pat_props pb)) as [bvs|e] eqn:Eb; [|done].
    destruct (eval_props ps oc) as [cvs|e] eqn:Ec; [|done].
    simpl in E. injection E as <-.
    match goal with |- context [merge_rels ty ?p ?pairs s] =>
      destruct (merge_rels_new ty p pairs s) as (new & En & _ & Hnew) end.
    split.
    + exists new. split; [done|]. intros r Hr.
      destruct (Hnew r Hr) as (<- & _ & _ & Hh). done.
    + intros r Hr. rewrite En in Hr.
      apply elem_of_app in Hr as [Hr|Hr]; [by left|].
      right. exists a. split; [left|].
      destruct (Hnew r Hr) as (Ht & Hp & Hin & _).
      apply list_elem_of_In, in_prod_iff in Hin as [Hx Hy].
      apply list_elem_of_In, elem_of_match_nodes in Hx, Hy.
      unfold creates. rewrite Hst.
      exists avs, bvs, cvs. repeat split; try done.
      * unfold node_at_matches in *. by rewrite merge_rels_nodes.
      * unfold node_at_matches in *. by rewrite merge_rels_nodes.
  - pose proof (exec_node_step_rels _ _ _ _ Hq E) as Er. split.
    + exists []. rewrite app_nil_r. split; [done|].
      intros r Hr. by apply elem_of_nil in Hr.
    + intros r Hr. left. by rewrite <- Er.
Qed.

(** Whatever the availability of the store. *)
Lemma rels_from_step l s0 a q ps s s' :
  a ∈ l → statement a = Some (q, ps) →
  rels_from l s0 s → exec q ps s = Ok s' → rels_from l s0 s'.
Proof.
  intros Ha Hst H1 E. eapply rels_from_trans; [done|].
  eapply rels_from_weaken; [|by eapply exec_rels_from].
  intros b Hb. by apply list_elem_of_singleton in Hb as ->.
Qed.

Lemma perform_rels_from l w : rels_from l (db w) (db (perform l w).2).
Proof.
  apply (perform_invariant (rels_from l (db w))); [|apply rels_from_refl].
  intros a q ps s s' Ha Hst H1 E. by eapply rels_from_step.
Qed.

Lemma load_rels_from inp w :
  rels_from (program inp) (db w) (db (load_hospital_graph_from_csv inp w).2).
Proof.
  apply (load_invariant (rels_from (program inp) (db w)));
    [|apply rels_from_refl].
  intros a q ps s s' Ha Hst H1 E. by eapply rels_from_step.
Qed.

Lemma retry_rels_from inp d n w :
  rels_from (program inp) (db w)
    (db (retry_call (load_hospital_graph_from_csv inp) (S n) d w).2).
Proof.
  apply (retry_invariant (rels_from (program inp) (db w)));
    [|apply rels_from_refl].
  intros a q ps s s' Ha Hst H1 E. by eapply rels_from_step.
Qed.

(** Every action of the program is a Python exception, the opening or
    closing of a session, a constraint declaration, or the statement of
    one of the twelve loads run on a row of its file. *)
Lemma elem_of_program inp a :
  a ∈ program inp →
  (∃ e, a = ARaise e) ∨ a = ASession ∨
  (∃ l, l ∈ NODES ∧ a = ATx (CreateConstraint l) ∅) ∨
  ∃ file q kwargs rows r ps,
    (file, q, kwargs) ∈ node_loads inp ++ rel_loads inp ∧
    file = Some rows ∧ r ∈ rows ∧ kwargs r = Ok ps ∧ a = ARun q ps.
Proof.
  assert (∀ loads, a ∈ flat_map load_actions loads →
    (∃ e, a = ARaise e) ∨ a = ASession ∨
    ∃ file q kwargs rows r ps, (file, q, kwargs) ∈ loads ∧
      file = Some rows ∧ r ∈ rows ∧ kwargs r = Ok ps ∧ a = ARun q ps) as Hl.
  { intros loads Ha. apply list_elem_of_In, in_flat_map in Ha
      as ([[file q] kwargs] & Hin & Ha).
    apply list_elem_of_In in Hin, Ha. unfold load_actions in Ha. simpl in Ha.
    destruct file as [rows|]; simpl in Ha.
    - apply elem_of_cons in Ha as [->|Ha]; [by right; left|].
      apply elem_of_app in Ha as [Ha|Ha].
      + apply list_elem_of_fmap in Ha as (r & -> & Hr). unfold row_action.
        destruct (kwargs r) as [ps|e] eqn:Ek; [|by left; eexists].
        right. right. by exists (Some rows), q, kwargs, rows, r, ps.
      + apply list_elem_of_singleton in Ha as ->. by right; left.
    - apply list_elem_of_singleton in Ha as ->. left. by eexists. }
  unfold program. intros Ha.
  apply elem_of_app in Ha as [Ha|Ha].
  { unfold constraint_actions in Ha.
    apply elem_of_cons in Ha as [->|Ha]; [by right; left|].
    apply elem_of_app in Ha as [Ha|Ha].
    - apply list_elem_of_fmap in Ha as (l & -> & Hin).
      right. right. left. by exists l.
    - apply list_elem_of_singleton in Ha as ->. by right; left. }
  apply elem_of_app in Ha as [Ha|Ha]; apply Hl in Ha
    as [?|[?|(file & q & kwargs & rows & r & ps & Hin & ?)]]; auto;
    right; right; right; exists file, q, kwargs, rows, r, ps;
    (split; [|done]); apply elem_of_app; auto.
Qed.

(** C4.  Whatever the files of a later run (one attempt or the retried
    run) contain, and whatever the availability of the store, every
    [COVERED_BY] relationship already in the database is still there,
    at its place and with the very same attributes ([service_date] and
    [billing_amount] among them), and the run adds no second
    [COVERED_BY] relationship between its two nodes: the attributes set
    at creation are never overwritten. *)
Theorem covered_by_attributes_create_only (inp : inputs) (w w' : world) :
  w' = (load_hospital_graph_from_csv inp w).2 ∨ w' = (main inp w).2 →
  ∀ i r, rels (db w) !! i = Some r → rtype r = "COVERED_BY"%string →
    rels (db w') !! i = Some r ∧
    ∀ j r', rels (db w') !! j = Some r' → rtype r' = "COVERED_BY"%string →
      src r' = src r → dst r' = dst r → j < length (rels (db w)).
Proof.
  intros Hw i r Hi Ht.
  assert (rels_from (program inp) (db w) (db w')) as ((_ & Hp & _) & Hg & _).
  { destruct Hw as [-> | ->]; [apply load_rels_from|].
    apply (retry_rels_from inp 10 99 w). }
  split; [by eapply prefix_lookup_Some|].
  intros j r' Hj Ht' Hs Hd.
  destruct Hg as (new & En & Hnew).
  destruct (decide (j < length (rels (db w)))) as [|Hge]; [done|].
  exfalso. rewrite En, lookup_app_r in Hj by lia.
  apply list_elem_of_lookup_2, Hnew in Hj.
  apply not_true_iff_false in Hj. apply Hj, has_rel_true.
  exists r. split; [by eapply list_elem_of_lookup_2|]. by rewrite Ht', Hs, Hd.
Qed.

(** C9.  Every [COVERED_BY] relationship a run creates (one attempt or
    the retried run) stems from a row of the visits file, joins the visit
    and the payer that row names, and has for [service_date] the value of
    the row's [discharge_date] column. *)
Theorem covered_by_service_date_is_discharge_date
    (inp : inputs) (w w' : world) :
  w' = (load_hospital_graph_from_csv inp w).2 ∨ w' = (main inp w).2 →
  ∀ r, r ∈ rels (db w') → r ∉ rels (db w) → rtype r = "COVERED_BY"%string →
  ∃ rows row visit_id payer_id discharge_date,
    VISITS_CSV inp = Some rows ∧ row ∈ rows ∧
    row !! "visit_id"%string = Some visit_id ∧
    row !! "payer_id"%string = Some payer_id ∧
    row !! "discharge_date"%string = Some discharge_date ∧
    node_keyed_by (db w') "Visit" visit_id (src r) ∧
    node_keyed_by (db w') "Payer" payer_id (dst r) ∧
    rprops r !! "service_date"%string = VStr <$> discharge_date.
Proof.
  intros Hw r Hr Hnew Ht.
  assert (rels_from (program inp) (db w) (db w')) as (_ & _ & Hc).
  { destruct Hw as [-> | ->]; [apply load_rels_from|].
    apply (retry_rels_from inp 10 99 w). }
  destruct (Hc r Hr) as [?|(a & Ha & Hcr)]; [done|].
  apply elem_of_program in Ha as [[e ->]|[->|[(l & _ & ->)|Ha]]]; try done.
  destruct Ha as (file & q & kwargs & rows & row & ps & Hin & Hf & Hrow & Hk & ->).
  unfold node_loads, rel_loads in Hin. simpl in Hin.
  repeat (apply elem_of_cons in Hin as [Hin|Hin];
          [injection Hin as -> -> ->|]);
    [..|by apply elem_of_nil in Hin]; try done;
    destruct Hcr as (avs & bvs & cvs & Ea & Eb & Ec & Ht' & Hp & Hx & Hy);
    try (rewrite Ht in Ht'; discriminate Ht').
  kwargs_inv Hk.
  eassert (Ok [("id"%string, VInt <$> (_ ≫= toInteger))] = Ok avs)
    as [= Ea'] by exact Ea.
  eassert (Ok [("id"%string, VInt <$> (_ ≫= toInteger))] = Ok bvs)
    as [= Eb'] by exact Eb.
  eassert (Ok [("service_date"%string, VStr <$> _);
               ("billing_amount"%string, VFloat <$> (_ ≫= toFloat))] = Ok cvs)
    as [= Ec'] by exact Ec.
  subst avs bvs cvs.
  eexists rows, row, _, _, _. repeat split; try done.
  rewrite Hp. destruct o1 as [d|]; simpl; [by rewrite lookup_insert_eq|].
  destruct (o2 ≫= toFloat); simpl; [by rewrite lookup_insert_ne | done].
Qed.

End Relationships.

Section RelationshipsExamples.
#[local] Existing Instance decimal.
Local Open Scope string_scope.

(** After a first load, visit 100 is loaded again with another billing
    amount: the relationship keeps its attributes. *)
Lemma covered_by_attributes_create_only_example :
  let w := (load_hospital_graph_from_csv example_files clean_world).2 in
  let w' := (load_hospital_graph_from_csv files_rebilled w).2 in
  rels (db w) !! 3 = Some covered_by_100_5 ∧
  rels (db w') !! 3 = Some covered_by_100_5 ∧
  ∀ j r', rels (db w') !! j = Some r' → rtype r' = "COVERED_BY" →
    src r' = src covered_by_100_5 → dst r' = dst covered_by_100_5 →
    j < length (rels (db w)).
Proof.
  cbv zeta. split; [reflexivity|].
  apply (covered_by_attributes_create_only files_rebilled
           (load_hospital_graph_from_csv example_files clean_world).2
           (load_hospital_graph_from_csv files_rebilled
              (load_hospital_graph_from_csv example_files clean_world).2).2
           (or_introl eq_refl) 3 covered_by_100_5);
    reflexivity.
Defined.

Lemma covered_by_service_date_is_discharge_date_example :
  let w' := (load_hospital_graph_from_csv example_files clean_world).2 in
  covered_by_100_5 ∈ rels (db w') ∧
  ∃ rows row visit_id payer_id discharge_date,
    VISITS_CSV example_files = Some rows ∧ row ∈ rows ∧
    row !! "visit_id" = Some visit_id ∧
    row !! "payer_id" = Some payer_id ∧
    row !! "discharge_date" = Some discharge_date ∧
    node_keyed_by (db w') "Visit" visit_id (src covered_by_100_5) ∧
    node_keyed_by (db w') "Payer" payer_id (dst covered_by_100_5) ∧
    rprops covered_by_100_5 !! "service_date" = VStr <$> discharge_date.
Proof.
  cbv zeta.
  assert (covered_by_100_5 ∈
    rels (db (load_hospital_graph_from_csv example_files clean_world).2))
    as Hin by (apply (list_elem_of_lookup_2 _ 3); reflexivity).
  split; [exact Hin|].
  apply (covered_by_service_date_is_discharge_date example_files clean_world
           (load_hospital_graph_from_csv example_files clean_world).2
           (or_introl eq_refl) covered_by_100_5 Hin).
  - apply not_elem_of_nil.
  - reflexivity.
Defined.

End RelationshipsExamples.

Section Derivation.
Context `{Scalars}.

#[local] Existing Instance extends_preorder.

(** ** Which rows give which relationships *)

(** On a database where a relationship statement is quiet, every pair of
    nodes its two [MATCH] clauses bind is joined. *)
Lemma quiet_rel_has_rel s pa pb ty oc ps avs bvs cvs x y :
  quiet s (ARun (MatchMergeRel pa pb ty oc) ps) →
  eval_props ps (pat_props pa) = Ok avs →
  eval_props ps (pat_props pb) = Ok bvs →
  eval_props ps oc = Ok cvs →
  node_at_matches s (pat_label pa) avs x = true →
  node_at_matches s (pat_label pb) bvs y = true →
  has_rel s ty x y = true.
Proof.
  intros Hq Ea Eb Ec Hx Hy. unfold quiet in Hq. cbn [statement] in Hq.
  rewrite (exec_rel_unfold _ _ _ _ _ _ _ _ _ Ea Eb Ec) in Hq.
  apply (merge_rels_fix _ _ _ _ (x, y) Hq).
  unfold endpoint_matches. rewrite Ea, Eb.
  apply list_elem_of_In, in_prod; apply list_elem_of_In, elem_of_match_nodes;
    done.
Qed.

(** A successful attempt ran the whole program, and every action of
    the program is quiet on the database it left. *)
Lemma load_Ok_quiet inp w :
  (load_hospital_graph_from_csv inp w).1 = Ok tt →
  Forall (quiet (db (load_hospital_graph_from_csv inp w).2)) (program inp) ∧
  ∀ e, ARaise e ∉ program inp.
Proof.
  intros Hok. destruct (load_Ok_run inp w Hok) as [_ Hrun].
  set (s' := db (load_hospital_graph_from_csv inp w).2) in *.
  split; [|intros e; by eapply run_actions_Ok_no_raise].
  rewrite run_program in Hrun.
  destruct (run_actions (on_pull w) constraint_actions None (db w))
    as [[[]|e] s1] eqn:E1; [|done].
  pose proof (constraints_run_Ok _ _ _ _ E1) as Hall.
  unfold program. apply Forall_app_2.
  - pose proof (run_actions_Ok_quiet _ _ _ _ _ E1
      constraint_actions_phased (constraint_actions_keyed (db w))) as Hq.
    pose proof (run_actions_extends (on_pull w)
      (node_actions inp ++ rel_actions inp) None s1) as Hext.
    rewrite Hrun in Hext. cbn [snd] in Hext.
    pose proof constraint_actions_node_step as Hn.
    apply Forall_forall. intros a Ha. rewrite Forall_forall in Hq, Hn.
    eapply quiet_mono_node_step; eauto.
  - eapply run_actions_Ok_quiet; [done | apply loads_phased|].
    by apply keyed_loads.
Qed.

(** C10.  After a successful attempt, for each relationship type of the
    table [rel_sources] (all from the visits file, except [WRITES] from
    the reviews file): two nodes are joined by a relationship of that type
    exactly when they were joined before the attempt, or some row of the
    type's file names them both, the source node by its label and the
    key in the source column, the target node by its label and the key in
    the target column.  In particular a Hospital and a Physician are
    joined by [EMPLOYS] exactly when some visit row holds that
    (hospital_id, physician_id) pair, a Visit and a Payer by [COVERED_BY]
    exactly when some visit row holds that (visit_id, payer_id) pair. *)
Theorem relationships_derived_from_files (inp : inputs) (w : world) :
  (load_hospital_graph_from_csv inp w).1 = Ok tt →
  let w' := (load_hospital_graph_from_csv inp w).2 in
  ∀ rs, rs ∈ rel_sources → ∀ x y,
    has_rel (db w') (rs_type rs) x y = true ↔
    has_rel (db w) (rs_type rs) x y = true ∨
    ∃ rows row a b,
      rs_file rs inp = Some rows ∧ row ∈ rows ∧
      row !! rs_src_column rs = Some a ∧ row !! rs_dst_column rs = Some b ∧
      node_keyed_by (db w') (rs_src_label rs) a x ∧
      node_keyed_by (db w') (rs_dst_label rs) b y.
Proof.
  intros Hok w' rs Hrs x y.
  destruct (load_Ok_quiet inp w Hok) as [Hquiet Hnoraise]. fold w' in Hquiet.
  pose proof (load_rels_from inp w) as (Hext & _ & Hfrom). fold w' in Hext, Hfrom.
  split.
  - intros Hh. apply has_rel_true in Hh as (r & Hr & Ht & <- & <-).
    destruct (Hfrom r Hr) as [Hold|(a & Ha & Hcr)].
    { left. apply has_rel_true. by exists r. }
    right.
    apply elem_of_program in Ha as [[e ->]|[->|[(l & _ & ->)|Ha]]]; try done.
    destruct Ha as (file & q & kwargs & rows & row & ps & Hin & Hf & Hrow & Hk & ->).
    unfold node_loads, rel_loads in Hin. simpl in Hin.
    unfold rel_sources in Hrs.
    repeat (apply elem_of_cons in Hrs as [->|Hrs]);
      [..|by apply elem_of_nil in Hrs];
      (repeat (apply elem_of_cons in Hin as [Hin|Hin];
               [injection Hin as -> -> ->|]);
       [..|by apply elem_of_nil in Hin]; try done;
       destruct Hcr as (avs & bvs & cvs & Ea & Eb & Ec & Ht' & Hp & Hx & Hy);
       try (rewrite Ht in Ht'; discriminate Ht'));
      kwargs_inv Hk;
      (eassert (Ok [("id"%string, VInt <$> (_ ≫= toInteger))] = Ok avs)
         as [= Ea'] by exact Ea);
      (eassert (Ok [("id"%string, VInt <$> (_ ≫= toInteger))] = Ok bvs)
         as [= Eb'] by exact Eb);
      subst avs bvs;
      eexists rows, row, _, _;
      (split; [exact Hf|]); (split; [exact Hrow|]);
      (split; [eassumption|]); (split; [eassumption|]);
      (split; [exact Hx | exact Hy]).
  - intros [Hold|(rows & row & a & b & Hf & Hrow & Ha & Hb & Hx & Hy)].
    { by eapply has_rel_extends. }
    rewrite Forall_forall in Hquiet.
    assert (∀ q kwargs, (rs_file rs inp, q, kwargs) ∈ rel_loads inp →
              ∃ ps, kwargs row = Ok ps ∧ quiet (db w') (ARun q ps)) as Hload.
    { intros q kwargs Hin.
      assert (row_action q kwargs row ∈ program inp) as Hact.
      { unfold program. apply elem_of_app. right. apply elem_of_app. right.
        eapply elem_of_load_actions; [done|]. rewrite Hf.
        by apply row_action_in_file. }
      unfold row_action in Hact.
      destruct (kwargs row) as [ps|e]; [|by apply Hnoraise in Hact].
      exists ps. split; [done|]. by apply Hquiet. }
    assert (∀ q kwargs, (rs_file rs inp, q, kwargs) ∈ rel_loads inp →
              ∃ pa pb ty oc ps avs bvs cvs,
                q = MatchMergeRel pa pb ty oc ∧ kwargs row = Ok ps ∧
                quiet (db w') (ARun q ps) ∧
                eval_props ps (pat_props pa) = Ok avs ∧
                eval_props ps (pat_props pb) = Ok bvs ∧
                eval_props ps oc = Ok cvs) as Hload'.
    { intros q kwargs Hin. destruct (Hload q kwargs Hin) as (ps & Hk & Hq).
      assert ((q, kwargs) ∈ rel_loaders) as Hin'.
      { clear -Hin. unfold rel_loads in Hin. unfold rel_loaders.
        repeat (apply elem_of_cons in Hin as [[= _ -> ->]|Hin];
                [repeat (first [apply list_elem_of_here
                               | apply list_elem_of_further])|]).
        by apply elem_of_nil in Hin. }
      assert (∃ pa pb ty oc, q = MatchMergeRel pa pb ty oc)
        as (pa & pb & ty & oc & ->).
      { clear -Hin'. unfold rel_loaders in Hin'.
        repeat (apply elem_of_cons in Hin' as [[= -> _]|Hin'];
                [by do 4 eexists|]).
        by apply elem_of_nil in Hin'. }
      destruct (rel_loader_evals _ _ _ _ _ _ _ _ Hin' eq_refl Hk)
        as (avs & bvs & cvs & Ea & Eb & Ec).
      by exists pa, pb, ty, oc, ps, avs, bvs, cvs. }
    clear Hload.
    unfold rel_sources in Hrs.
    repeat (apply elem_of_cons in Hrs as [->|Hrs]);
      [..|by apply elem_of_nil in Hrs]; cbn [rs_type rs_file rs_src_label
        rs_src_column rs_dst_label rs_dst_column] in *.
    all: match goal with
         | |- has_rel _ "AT" _ _ = _ => destruct (Hload' merge_at at_kwargs)
             as (pa & pb & ty & oc & ps & avs & bvs & cvs & Eq & Hk & Hq & Ea & Eb & Ec)
         | |- has_rel _ "WRITES" _ _ = _ => destruct (Hload' merge_writes writes_kwargs)
             as (pa & pb & ty & oc & ps & avs & bvs & cvs & Eq & Hk & Hq & Ea & Eb & Ec)
         | |- has_rel _ "TREATS" _ _ = _ => destruct (Hload' merge_treats treats_kwargs)
             as (pa & pb & ty & oc & ps & avs & bvs & cvs & Eq & Hk & Hq & Ea & Eb & Ec)
         | |- has_rel _ "COVERED_BY" _ _ = _ =>
             destruct (Hload' merge_covered_by covered_by_kwargs)
             as (pa & pb & ty & oc & ps & avs & bvs & cvs & Eq & Hk & Hq & Ea & Eb & Ec)
         | |- has_rel _ "HAS" _ _ = _ => destruct (Hload' merge_has has_kwargs)
             as (pa & pb & ty & oc & ps & avs & bvs & cvs & Eq & Hk & Hq & Ea & Eb & Ec)
         | |- has_rel _ "EMPLOYS" _ _ = _ => destruct (Hload' merge_employs employs_kwargs)
             as (pa & pb & ty & oc & ps & avs & bvs & cvs & Eq & Hk & Hq & Ea & Eb & Ec)
         end;
         [unfold rel_loads; repeat (first [apply list_elem_of_here
                                          | apply list_elem_of_further])|];
         injection Eq as <- <- <- <-; kwargs_inv Hk;
         (eassert (Ok [("id"%string, VInt <$> (_ ≫= toInteger))] = Ok avs)
            as [= Ea'] by exact Ea);
         (eassert (Ok [("id"%string, VInt <$> (_ ≫= toInteger))] = Ok bvs)
            as [= Eb'] by exact Eb);
         subst avs bvs;
         (eapply quiet_rel_has_rel; [exact Hq | exact Ea | exact Eb | exact Ec | |]);
         unfold node_keyed_by in Hx, Hy;
         repeat match goal with
                | Hs : Some ?u = Some ?v |- _ => injection Hs as <-
                end;
         assumption.
Qed.

End Derivation.

Section Sources.
Context `{Scalars}.

#[local] Existing Instance extends_preorder.

(** ** The loads and their statements *)

Lemma node_loads_loaders inp file q kwargs :
  (file, q, kwargs) ∈ node_loads inp → (q, kwargs) ∈ node_loaders.
Proof.
  unfold node_loads, node_loaders. intros Hin.
  repeat (apply elem_of_cons in Hin as [[= _ -> ->]|Hin];
          [repeat (first [apply list_elem_of_here
                         | apply list_elem_of_further])|]).
  by apply elem_of_nil in Hin.
Qed.

Lemma rel_loads_loaders inp file q kwargs :
  (file, q, kwargs) ∈ rel_loads inp → (q, kwargs) ∈ rel_loaders.
Proof.
  unfold rel_loads, rel_loaders. intros Hin.
  repeat (apply elem_of_cons in Hin as [[= _ -> ->]|Hin];
          [repeat (first [apply list_elem_of_here
                         | apply list_elem_of_further])|]).
  by apply elem_of_nil in Hin.
Qed.

Lemma node_loaders_shape q kwargs :
  (q, kwargs) ∈ node_loaders →
  ∃ pat, q = MergeNode pat ∧ pat_label pat ∈ NODES.
Proof.
  unfold node_loaders. intros Hin.
  repeat (apply elem_of_cons in Hin as [[= -> _]|Hin];
          [eexists; split; [reflexivity|]; simpl; unfold NODES;
           repeat (first [apply list_elem_of_here
                         | apply list_elem_of_further])|]).
  by apply elem_of_nil in Hin.
Qed.

Lemma rel_loaders_shape q kwargs :
  (q, kwargs) ∈ rel_loaders → ∃ pa pb ty oc, q = MatchMergeRel pa pb ty oc.
Proof.
  unfold rel_loaders. intros Hin.
  repeat (apply elem_of_cons in Hin as [[= -> _]|Hin]; [by do 4 eexists|]).
  by apply elem_of_nil in Hin.
Qed.

(** The parameters a node loader passes are those its statement
    mentions. *)
Lemma node_loader_evals q kwargs pat r ps :
  (q, kwargs) ∈ node_loaders → q = MergeNode pat → kwargs r = Ok ps →
  ∃ kvs, eval_props ps (pat_props pat) = Ok kvs.
Proof.
  intros Hin Hq Hk. unfold node_loaders in Hin.
  repeat (apply elem_of_cons in Hin as [Hin|Hin];
          [injection Hin as -> ->; injection Hq as <-|]);
    [..|by apply elem_of_nil in Hin];
    kwargs_inv Hk; eexists; reflexivity.
Qed.

(** The statement of each node loader evaluates its properties to what
    the table [node_sources] says. *)
Lemma node_loads_sources inp file q kwargs r ps :
  (file, q, kwargs) ∈ node_loads inp → kwargs r = Ok ps →
  ∃ ns pat, ns ∈ node_sources ∧ ns_file ns inp = file ∧
    q = MergeNode pat ∧ pat_label pat = ns_label ns ∧
    eval_props ps (pat_props pat) = Ok (row_props ns r) ∧
    is_Some (r !! ns_key ns) ∧
    assoc "id"%string (row_props ns r) =
      Some (VInt <$> (default None (r !! ns_key ns) ≫= toInteger)).
Proof.
  unfold node_loads. intros Hin Hk.
  repeat (apply elem_of_cons in Hin as [[= -> -> ->]|Hin]);
    [..|by apply elem_of_nil in Hin]; kwargs_inv Hk;
    [exists (NodeSource "Hospital" HOSPITALS_CSV "hospital_id"
       [("id", "hospital_id", AsInteger); ("name", "hospital_name", AsString);
        ("state_name", "hospital_state", AsString)]%string)
    |exists (NodeSource "Payer" PAYERS_CSV "payer_id"
       [("id", "payer_id", AsInteger); ("name", "payer_name", AsString)]%string)
    |exists (NodeSource "Physician" PHYSICIANS_CSV "physician_id"
       [("id", "physician_id", AsInteger);
        ("name", "physician_name", AsString);
        ("dob", "physician_dob", AsString);
        ("grad_year", "physician_grad_year", AsString);
        ("school", "medical_school", AsString);
        ("salary", "salary", AsFloat)]%string)
    |exists (NodeSource "Patient" PATIENTS_CSV "patient_id"
       [("id", "patient_id", AsInteger); ("name", "patient_name", AsString);
        ("sex", "patient_sex", AsString); ("dob", "patient_dob", AsString);
        ("blood_type", "patient_blood_type", AsString)]%string)
    |exists (NodeSource "Visit" VISITS_CSV "visit_id"
       [("id", "visit_id", AsInteger);
        ("room_number", "room_number", AsInteger);
        ("admission_type", "admission_type", AsString);
        ("admission_date", "date_of_admission", AsString);
        ("test_results", "test_results", AsString);
        ("status", "visit_status", AsString);
        ("chief_complaint", "chief_complaint", AsString);
        ("treatment_description", "treatment_description", AsString);
        ("diagnosis", "primary_diagnosis", AsString);
        ("discharge_date", "discharge_date", AsString)]%string)
    |exists (NodeSource "Review" REVIEWS_CSV "review_id"
       [("id", "review_id", AsInteger); ("text", "review", AsString);
        ("patient_name", "patient_name", AsString);
        ("physician_name", "physician_name", AsString);
        ("hospital_name", "hospital_name", AsString)]%string)];
    eexists; (split; [unfold node_sources;
                      repeat (first [apply list_elem_of_here
                                    | apply list_elem_of_further])|]);
    (split; [reflexivity|]); (split; [reflexivity|]); (split; [reflexivity|]);
    unfold row_props;
    cbn [ns_props ns_key fmap list_fmap fst snd coerce];
    repeat match goal with
           | E : r !! _ = Some _ |- _ => rewrite E; clear E
           end;
    (split; [reflexivity|]); (split; [by eexists | reflexivity]).
Qed.

(** The load of each label of the table [node_sources]. *)
Lemma node_source_load inp ns r :
  ns ∈ node_sources →
  ∃ q kwargs pat,
    (ns_file ns inp, q, kwargs) ∈ node_loads inp ∧
    q = MergeNode pat ∧ pat_label pat = ns_label ns ∧
    ∀ ps, kwargs r = Ok ps →
      eval_props ps (pat_props pat) = Ok (row_props ns r) ∧
      is_Some (r !! ns_key ns) ∧
      assoc "id"%string (row_props ns r) =
        Some (VInt <$> (default None (r !! ns_key ns) ≫= toInteger)).
Proof.
  unfold node_sources. intros Hns.
  repeat (apply elem_of_cons in Hns as [->|Hns]);
    [..|by apply elem_of_nil in Hns];
    cbn [ns_file ns_label ns_key];
    do 3 eexists;
    (split; [unfold node_loads;
             repeat (first [apply list_elem_of_here
                           | apply list_elem_of_further])|]);
    (split; [reflexivity|]); (split; [reflexivity|]);
    intros ps Hk; kwargs_inv Hk;
    unfold row_props;
    cbn [ns_props ns_key fmap list_fmap fst snd coerce];
    repeat match goal with
           | E : r !! _ = Some _ |- _ => rewrite E; clear E
           end;
    (split; [reflexivity|]); (split; [by eexists | reflexivity]).
Qed.

(** The actions of each load that opened its file make up one session of
    the program. *)
Lemma program_block inp file q kwargs rows :
  (file, q, kwargs) ∈ node_loads inp ++ rel_loads inp → file = Some rows →
  ∃ pre post, program inp =
    pre ++ (ASession :: map (row_action q kwargs) rows ++ [ASession]) ++ post.
Proof.
  intros Hin ->.
  assert (∀ loads, (Some rows, q, kwargs) ∈ loads →
    ∃ pre post, flat_map load_actions loads =
      pre ++ file_actions (Some rows) q kwargs ++ post) as Hl.
  { intros loads Hl. apply list_elem_of_split in Hl as (l1 & l2 & ->).
    exists (flat_map load_actions l1), (flat_map load_actions l2).
    by rewrite flat_map_app. }
  unfold program, node_actions, rel_actions.
  apply elem_of_app in Hin as [Hin|Hin]; destruct (Hl _ Hin) as (pre & post & ->).
  - exists (constraint_actions ++ pre), (post ++ flat_map load_actions (rel_loads inp)).
    by rewrite <- !app_assoc.
  - exists (constraint_actions ++ flat_map load_actions (node_loads inp) ++ pre), post.
    by rewrite <- !app_assoc.
Qed.

(** After an attempt that raised nothing: the statement of every row of
    every file was sent, and either it succeeded, or it failed with a
    failure that the store reported late and that was lost when the
    session was closed, the row being the last of its file. *)
Lemma load_Ok_each inp w file q kwargs rows k r :
  (load_hospital_graph_from_csv inp w).1 = Ok tt →
  (file, q, kwargs) ∈ node_loads inp ++ rel_loads inp → file = Some rows →
  rows !! k = Some r →
  ∃ ps s, kwargs r = Ok ps ∧ extends (db w) s ∧
    extends s (db (load_hospital_graph_from_csv inp w).2) ∧
    ((∃ s', exec q ps s = Ok s' ∧
        extends s' (db (load_hospital_graph_from_csv inp w).2)) ∨
     (∃ e, exec q ps s = Raise e ∧ on_pull w q e = true ∧
        S k = length rows)).
Proof.
  intros Hok Hin Hf Hk. destruct (load_Ok_run inp w Hok) as [_ Hrun].
  set (s1 := db (load_hospital_graph_from_csv inp w).2) in *.
  assert (∀ e, ARaise e ∉ program inp) as Hnoraise
    by (intros e; by eapply run_actions_Ok_no_raise).
  destruct (program_block inp file q kwargs rows Hin Hf) as (pre & post & Ep).
  pose proof (take_drop_middle rows k r Hk) as Er.
  assert (∀ r', r' ∈ rows → ∃ ps, kwargs r' = Ok ps) as Hall.
  { intros r' Hr'. destruct (kwargs r') as [ps|e] eqn:Ek; [by eexists|].
    exfalso. apply (Hnoraise e). rewrite Ep. apply elem_of_app. right.
    apply elem_of_app. left. right. apply elem_of_app. left.
    apply list_elem_of_fmap. exists r'. split; [|done].
    unfold row_action. by rewrite Ek. }
  destruct (Hall r) as [ps Eps]; [by eapply list_elem_of_lookup_2|].
  exists ps.
  assert (program inp =
    (pre ++ ASession :: map (row_action q kwargs) (take k rows)) ++
    ARun q ps ::
      (map (row_action q kwargs) (drop (S k) rows) ++ [ASession] ++ post))
    as Ep'.
  { rewrite Ep. rewrite <- Er at 1. rewrite map_app. cbn [map].
    unfold row_action at 2. rewrite Eps.
    by rewrite <- !app_assoc, <- app_comm_cons, <- !app_assoc. }
  rewrite Ep' in Hrun.
  destruct (run_actions_Ok_each _ _ _ _ _ _ _ _ Hrun)
    as (s & H1 & H2 & [Hc|(e & E & Hl & Hpost)]);
    exists s; (split; [done|]); (split; [done|]); (split; [done|]);
    [by left|].
  right. exists e. split; [done|]. split; [done|].
  apply lookup_lt_Some in Hk as Hlt.
  destruct (drop (S k) rows) as [|r' rest] eqn:Ed.
  - apply (f_equal length) in Ed. rewrite length_drop in Ed. simpl in Ed. lia.
  - exfalso. destruct (Hall r') as [ps' Eps'].
    { rewrite <- Er. apply elem_of_app. right. right. left. }
    eapply Hpost. cbn [map app]. unfold row_action at 1. rewrite Eps'. done.
Qed.

End Sources.

Section Nodes.
Context `{Scalars}.

(** ** Where nodes come from *)

Lemma nodes_from_refl l s : nodes_from l s s.
Proof.
  split; [done|]. intros j n Hj Hge. apply lookup_lt_Some in Hj. lia.
Qed.

Lemma nodes_from_trans l s1 s2 s3 :
  nodes_from l s1 s2 → nodes_from l s2 s3 → nodes_from l s1 s3.
Proof.
  intros [Hp1 H1] [Hp2 H2]. split; [by etrans|].
  intros j n Hj Hge.
  destruct (decide (j < length (nodes s2))) as [Hlt|Hnlt].
  - apply (H1 j n); [|done].
    rewrite <- Hj. by apply prefix_lookup_lt.
  - apply (H2 j n); [done | lia].
Qed.

Lemma nodes_from_weaken l l' s s' :
  l ⊆ l' → nodes_from l s s' → nodes_from l' s s'.
Proof.
  intros Hsub [Hp Hc]. split; [done|]. intros j n Hj Hge.
  destruct (Hc j n Hj Hge) as (a & Ha & Hcr). exists a. split; [auto | done].
Qed.

Lemma exec_nodes_from a q ps s s' :
  statement a = Some (q, ps) → exec q ps s = Ok s' → nodes_from [a] s s'.
Proof.
  intros Hst E. destruct q as [l|pat|pa pb ty oc].
  - simpl in E. destruct (constrained s l); [injection E as <-; apply nodes_from_refl|].
    destruct (has_dup (ids_of s l)); [done|]. injection E as <-.
    split; [done|]. intros j n Hj Hge. simpl in Hj.
    apply lookup_lt_Some in Hj. lia.
  - simpl in E.
    destruct (eval_props ps (pat_props pat)) as [kvs|e] eqn:Ek; [|done].
    simpl in E. destruct (first_null kvs) eqn:Hn; [done|].
    destruct (match_nodes s (pat_label pat) kvs);
      [|injection E as <-; apply nodes_from_refl].
    destruct (unique_conflict s (pat_label pat) kvs); [done|].
    injection E as <-. split; [by apply prefix_app_r|].
    intros j n Hj Hge. simpl in Hj.
    rewrite lookup_app_r in Hj by done.
    apply list_lookup_singleton_Some in Hj as [_ <-].
    exists a. split; [left|]. unfold creates_node. rewrite Hst. by exists kvs.
  - destruct (exec_rel_nodes (MatchMergeRel pa pb ty oc) ps s s' eq_refl E)
      as [En _].
    split; [by rewrite En|]. intros j n Hj Hge. rewrite En in Hj.
    apply lookup_lt_Some in Hj. lia.
Qed.

Lemma nodes_from_step l s0 a q ps s s' :
  a ∈ l → statement a = Some (q, ps) →
  nodes_from l s0 s → exec q ps s = Ok s' → nodes_from l s0 s'.
Proof.
  intros Ha Hst H1 E. eapply nodes_from_trans; [done|].
  eapply nodes_from_weaken; [|by eapply exec_nodes_from].
  intros b Hb. by apply list_elem_of_singleton in Hb as ->.
Qed.

Lemma load_nodes_from inp w :
  nodes_from (program inp) (db w) (db (load_hospital_graph_from_csv inp w).2).
Proof.
  apply (load_invariant (nodes_from (program inp) (db w)));
    [|apply nodes_from_refl].
  intros a q ps s s' Ha Hst H1 E. by eapply nodes_from_step.
Qed.

Lemma retry_nodes_from inp d n w :
  nodes_from (program inp) (db w)
    (db (retry_call (load_hospital_graph_from_csv inp) (S n) d w).2).
Proof.
  apply (retry_invariant (nodes_from (program inp) (db w)));
    [|apply nodes_from_refl].
  intros a q ps s s' Ha Hst H1 E. by eapply nodes_from_step.
Qed.

(** A node created by a run mirrors a row of the file of its label. *)
Lemma created_node_row inp s s' j n :
  nodes_from (program inp) s s' →
  nodes s' !! j = Some n → length (nodes s) ≤ j →
  ∃ ns rows r,
    ns ∈ node_sources ∧ ns_file ns inp = Some rows ∧ r ∈ rows ∧
    labels n = [ns_label ns] ∧
    props n = props_of (row_props ns r) ∧
    first_null (row_props ns r) = None.
Proof.
  intros [_ Hc] Hj Hge.
  destruct (Hc j n Hj Hge) as (a & Ha & Hcr).
  apply elem_of_program in Ha as [[e ->]|[->|[(l & _ & ->)|Ha]]]; try done.
  destruct Ha as (file & q & kwargs & rows & r & ps & Hin & -> & Hr & Hk & ->).
  apply elem_of_app in Hin as [Hin|Hin].
  - destruct (node_loads_sources _ _ _ _ _ _ Hin Hk)
      as (ns & pat & Hns & Hfile & -> & Hlab & Ek & _).
    destruct Hcr as (kvs & Ek' & Hn & ->).
    rewrite Ek in Ek'. injection Ek' as <-.
    exists ns, rows, r. rewrite Hlab. by repeat split.
  - apply rel_loads_loaders in Hin.
    by destruct (rel_loaders_shape _ _ Hin) as (pa & pb & ty & oc & ->).
Qed.

(** X9.  Every node a run creates (in one attempt or in the retried run)
    mirrors a row of the file of its label, as the table [node_sources]
    lays out: it carries that single label, and its properties are exactly
    the listed ones, each read from its column of the row and coerced as
    listed (for instance a visit's [admission_date] from
    [date_of_admission], a review's [text] from [review]); none of them is
    null. *)
Theorem created_nodes_mirror_rows (inp : inputs) (w w' : world) :
  w' = (load_hospital_graph_from_csv inp w).2 ∨ w' = (main inp w).2 →
  ∀ j n, nodes (db w') !! j = Some n → length (nodes (db w)) ≤ j →
  ∃ ns rows r,
    ns ∈ node_sources ∧ ns_file ns inp = Some rows ∧ r ∈ rows ∧
    labels n = [ns_label ns] ∧
    props n = props_of (row_props ns r) ∧
    first_null (row_props ns r) = None.
Proof.
  intros Hw j n Hj Hge.
  apply (created_node_row inp (db w) (db w') j n); [|done|done].
  destruct Hw as [-> | ->]; [apply load_nodes_from|].
  apply (retry_nodes_from inp 10 99 w).
Qed.

(** *** Every row gets its node *)

Lemma id_is_node_matches v l n :
  id_is v l n = node_matches l [("id"%string, Some v)] n.
Proof.
  unfold id_is, node_matches, prop_matches. simpl.
  by destruct (props n !! "id"%string); rewrite ?andb_true_r.
Qed.

(** A node merge that succeeds leaves a node carrying its label and its
    [id]. *)
Lemma exec_merge_keyed pat ps s s' kvs z :
  exec (MergeNode pat) ps s = Ok s' →
  eval_props ps (pat_props pat) = Ok kvs →
  assoc "id"%string kvs = Some (Some (VInt z)) →
  ∃ x, node_at_matches s' (pat_label pat) [("id"%string, Some (VInt z))] x = true.
Proof.
  intros E Ek Ha. simpl in E. rewrite Ek in E. simpl in E.
  destruct (first_null kvs); [done|].
  destruct (match_nodes s (pat_label pat) kvs) as [|x xs] eqn:Hm.
  - destruct (unique_conflict s (pat_label pat) kvs); [done|].
    injection E as <-. exists (length (nodes s)).
    unfold node_at_matches. simpl.
    rewrite lookup_app_r, Nat.sub_diag by done. simpl.
    rewrite <- id_is_node_matches. unfold id_is.
    rewrite has_label_singleton. simpl.
    rewrite (props_of_lookup _ _ _ Ha). simpl. by rewrite Z.eqb_refl.
  - injection E as <-.
    assert (x ∈ match_nodes s (pat_label pat) kvs) as Hx by (rewrite Hm; left).
    apply elem_of_match_nodes in Hx. exists x.
    unfold node_at_matches in *.
    destruct (nodes s !! x) as [n|]; [|done].
    rewrite <- id_is_node_matches. by eapply node_matches_id.
Qed.

(** X10.  After a successful attempt every row of every node file has its
    node, except possibly the last row of a file.  For each label of the
    table [node_sources] and each row of its file: either the key column
    of the row holds an integer and some node of the database carries the
    label and that integer as [id]; or the row is the last of its file,
    its merge failed, and the store reported the failure late, so that
    it was lost when the session was closed. *)
Theorem every_row_has_its_node (inp : inputs) (w : world) :
  (load_hospital_graph_from_csv inp w).1 = Ok tt →
  let w' := (load_hospital_graph_from_csv inp w).2 in
  ∀ ns rows k r,
    ns ∈ node_sources → ns_file ns inp = Some rows → rows !! k = Some r →
    (∃ key x, r !! ns_key ns = Some key ∧
       is_Some (key ≫= toInteger) ∧
       node_keyed_by (db w') (ns_label ns) key x) ∨
    (S k = length rows ∧
     ∃ q kwargs ps s e,
       (ns_file ns inp, q, kwargs) ∈ node_loads inp ∧ kwargs r = Ok ps ∧
       extends (db w) s ∧ extends s (db w') ∧
       exec q ps s = Raise e ∧ on_pull w q e = true).
Proof.
  intros Hok w' ns rows k r Hns Hfile Hk.
  destruct (node_source_load inp ns r Hns)
    as (q & kwargs & pat & Hin & -> & Hlab & Hev).
  destruct (load_Ok_each inp w _ _ kwargs rows k r Hok
              (proj2 (elem_of_app _ _ _) (or_introl Hin)) Hfile Hk)
    as (ps & s & Hps & H1 & H2 & [(s' & E & H3)|(e & E & Hl & Hlast)]).
  - left. destruct (Hev ps Hps) as (Ek & [key Hkey] & Hid).
    assert (first_null (row_props ns r) = None) as Hn.
    { simpl in E. rewrite Ek in E. simpl in E.
      by destruct (first_null (row_props ns r)). }
    rewrite Hkey in Hid. simpl in Hid.
    destruct (first_null_assoc _ _ _ Hn Hid) as [v Hv].
    destruct (key ≫= toInteger) as [z|] eqn:Hz; [|done].
    simpl in Hid.
    destruct (exec_merge_keyed _ _ _ _ _ _ E Ek Hid) as [x Hx].
    exists key, x. split; [done|]. split; [by rewrite Hz|].
    unfold node_keyed_by. rewrite Hz, <- Hlab. simpl.
    destruct H3 as (Hn3 & _). by eapply node_at_matches_extends.
  - right. split; [done|]. by exists (MergeNode pat), kwargs, ps, s, e.
Qed.

End Nodes.

Section Keys.
Context `{Scalars}.

#[local] Existing Instance extends_preorder.

(** ** Invariants that rest on the constraints *)






(** *** A key that is taken *)



End Keys.

Section NodeMerges.
Context `{Scalars}.

#[local] Existing Instance extends_preorder.

(** ** Node merges: all properties are matched, nulls are refused *)





End NodeMerges.

Section Coercions.
Context `{Scalars}.

#[local] Existing Instance extends_preorder.

(** ** Fields that cannot be coerced *)









End Coercions.

Section NodeMergesExamples.
#[local] Existing Instance decimal.
Local Open Scope string_scope.





Lemma relationships_derived_from_files_example :
  let w' := (load_hospital_graph_from_csv example_files clean_world).2 in
  let rs := RelSource "EMPLOYS" VISITS_CSV "Hospital" "hospital_id"
                      "Physician" "physician_id" in
  (load_hospital_graph_from_csv example_files clean_world).1 = Ok tt ∧
  (has_rel (db w') (rs_type rs) 0 2 = true ↔
   has_rel (db clean_world) (rs_type rs) 0 2 = true ∨
   ∃ rows row a b,
     rs_file rs example_files = Some rows ∧ row ∈ rows ∧
     row !! rs_src_column rs = Some a ∧ row !! rs_dst_column rs = Some b ∧
     node_keyed_by (db w') (rs_src_label rs) a 0 ∧
     node_keyed_by (db w') (rs_dst_label rs) b 2).
Proof.
  cbv zeta. split; [reflexivity|].
  apply (relationships_derived_from_files example_files clean_world eq_refl
           (RelSource "EMPLOYS" VISITS_CSV "Hospital" "hospital_id"
                      "Physician" "physician_id")).
  unfold rel_sources.
  repeat (first [apply list_elem_of_here | apply list_elem_of_further]).
Defined.

End NodeMergesExamples.

Section OrderExamples.
#[local] Existing Instance decimal.

Lemma steps_in_strict_order_example :
  let w' := (load_hospital_graph_from_csv example_files clean_world).2 in
  ∃ t, issued w' = issued clean_world ++ t ∧
    (∀ i j a b, i ≤ j → t !! i = Some a → t !! j = Some b →
       phase a ≤ phase b) ∧
    (∀ j b, t !! j = Some b → 1 ≤ phase b →
       6 ≤ j ∧ take 6 t = constraint_statements ∧ all_constrained (db w')) ∧
    (∀ j b, t !! j = Some b → phase b = 2 →
       ∀ file q kwargs, (file, q, kwargs) ∈ node_loads example_files →
         ∃ rows, file = Some rows ∧
           ∀ r, r ∈ rows →
             ∃ ps i, kwargs r = Ok ps ∧ i < j ∧ t !! i = Some (q, ps)).
Proof. exact (steps_in_strict_order example_files clean_world). Defined.

End OrderExamples.
